(** * Spotify song downloader (main.py): a shallow embedding and its properties

    The development follows main.py function by function.  Python [str]
    values are [string]s; the two regular expressions of the program are
    written as syntax trees and run by a small backtracking matcher that
    follows the semantics of Python's [re] module (leftmost match, ordered
    alternation, greedy repetition, numbered groups). *)

From Stdlib Require Import List Ascii String Bool Arith Lia DecimalString Permutation.
Import ListNotations.
Open Scope string_scope.

(* ================================================================== *)
(** ** Strings *)

Module Str.

(** The double quote character, code point 34. *)
Definition dquote : ascii := ascii_of_nat 34.

(** [s[len(p):]] when [s.startswith(p)]. *)
Fixpoint strip_prefix (p s : string) : option string :=
  match p with
  | EmptyString => Some s
  | String c p' =>
      match s with
      | EmptyString => None
      | String d s' => if Ascii.eqb c d then strip_prefix p' s' else None
      end
  end.

(** All characters of [s] satisfy [p]. *)
Fixpoint all (p : ascii -> bool) (s : string) : bool :=
  match s with
  | EmptyString => true
  | String c s' => p c && all p s'
  end.

(** The characters of [s] that satisfy [p], in order. *)
Fixpoint filter (p : ascii -> bool) (s : string) : string :=
  match s with
  | EmptyString => EmptyString
  | String c s' => if p c then String c (filter p s') else filter p s'
  end.

(** The longest prefix of [s] whose characters satisfy [p], and the rest. *)
Fixpoint span (p : ascii -> bool) (s : string) : string * string :=
  match s with
  | EmptyString => (EmptyString, EmptyString)
  | String c s' =>
      if p c then let '(a, b) := span p s' in (String c a, b)
      else (EmptyString, s)
  end.

(** [s] does not begin with a character satisfying [p]. *)
Definition stops (p : ascii -> bool) (s : string) : Prop :=
  match s with
  | EmptyString => True
  | String c _ => p c = false
  end.

(** Python truthiness of a [str]: non-empty. *)
Definition truthy (s : string) : bool :=
  match s with EmptyString => false | String _ _ => true end.

(** [sep.join(l)]. *)
Fixpoint join (sep : string) (l : list string) : string :=
  match l with
  | [] => EmptyString
  | [x] => x
  | x :: l' => x ++ sep ++ join sep l'
  end.

(** [s.strip()]: white space removed at both ends.  A character of a
    string is a code point below 256; of these [str.isspace] holds for
    9 to 13, 28 to 32, 133 (next line) and 160 (no-break space). *)
Definition is_space (c : ascii) : bool :=
  let n := nat_of_ascii c in
  (Nat.leb 9 n && Nat.leb n 13) || (Nat.leb 28 n && Nat.leb n 32)
  || Nat.eqb n 133 || Nat.eqb n 160.

Fixpoint lstrip (s : string) : string :=
  match s with
  | EmptyString => EmptyString
  | String c s' => if is_space c then lstrip s' else s
  end.

Fixpoint rstrip (s : string) : string :=
  match s with
  | EmptyString => EmptyString
  | String c s' =>
      match rstrip s' with
      | EmptyString => if is_space c then EmptyString else String c EmptyString
      | r => String c r
      end
  end.

Definition strip (s : string) : string := rstrip (lstrip s).

(** [s.startswith(c)] and [s.endswith(c)] for one character. *)
Definition starts_with (c : ascii) (s : string) : bool :=
  match s with String d _ => Ascii.eqb c d | EmptyString => false end.

Fixpoint ends_with (c : ascii) (s : string) : bool :=
  match s with
  | EmptyString => false
  | String d EmptyString => Ascii.eqb c d
  | String _ s' => ends_with c s'
  end.

End Str.

(** ** os.path *)

Module Os.

(** [os.path.join(a, b)] on POSIX. *)
Definition path_join (a b : string) : string :=
  if Str.starts_with "/" b then b
  else if negb (Str.truthy a) || Str.ends_with "/" a then a ++ b
  else a ++ "/" ++ b.

End Os.

(* ================================================================== *)
(** ** Regular expressions, as Python's [re] runs them *)

Module Re.

(** An item of a bracketed character set: one character or a range. *)
Inductive citem : Type :=
| One (c : ascii)
| Range (lo hi : ascii).

Definition citem_mem (c : ascii) (i : citem) : bool :=
  match i with
  | One d => Ascii.eqb c d
  | Range lo hi =>
      Nat.leb (nat_of_ascii lo) (nat_of_ascii c) && Nat.leb (nat_of_ascii c) (nat_of_ascii hi)
  end.

Definition cset_mem (items : list citem) (c : ascii) : bool :=
  existsb (citem_mem c) items.

Inductive regex : Type :=
| Eps                              (* the empty pattern *)
| Chr (c : ascii)                  (* a literal or escaped character *)
| Cls (items : list citem)         (* [...] *)
| Cat (r1 r2 : regex)              (* r1r2 *)
| Alt (r1 r2 : regex)              (* r1|r2 *)
| Plus (r : regex)                 (* r+, greedy *)
| Group (n : nat) (r : regex).     (* the n-th capturing group (r) *)

(** A literal string as a pattern. *)
Fixpoint lit (s : string) : regex :=
  match s with
  | EmptyString => Eps
  | String c s' => Cat (Chr c) (lit s')
  end.

(** One way of matching at the start of the subject: the text matched, the
    rest of the subject, and the groups captured (most recent first). *)
Definition result : Type := (string * string * list (nat * string))%type.

Definition extend (m1 : string) (g1 : list (nat * string)) (x : result) : result :=
  let '(m2, rest, g2) := x in (m1 ++ m2, rest, (g2 ++ g1)%list).

(** Greedy iteration of the matcher [f]: after one match of [f], first try
    to go on, then to stop.  The fuel bounds the number of iterations; an
    iteration that consumed nothing is not repeated. *)
Fixpoint iter_plus (f : string -> list result) (fuel : nat) (s : string)
  : list result :=
  match fuel with
  | 0 => []
  | S n =>
      flat_map
        (fun x : result =>
           let '(m1, rest, g1) := x in
           ((if Str.truthy m1 then map (extend m1 g1) (iter_plus f n rest) else [])
              ++ [x])%list)
        (f s)
  end.

(** All the ways [r] matches at the start of [s], in the order in which a
    backtracking matcher tries them. *)
Fixpoint matches (r : regex) (s : string) : list result :=
  match r with
  | Eps => [(EmptyString, s, [])]
  | Chr c =>
      match s with
      | String d s' => if Ascii.eqb c d then [(String d EmptyString, s', [])] else []
      | EmptyString => []
      end
  | Cls items =>
      match s with
      | String d s' => if cset_mem items d then [(String d EmptyString, s', [])] else []
      | EmptyString => []
      end
  | Cat r1 r2 =>
      flat_map
        (fun x : result =>
           let '(m1, rest, g1) := x in map (extend m1 g1) (matches r2 rest))
        (matches r1 s)
  | Alt r1 r2 => (matches r1 s ++ matches r2 s)%list
  | Plus r1 => iter_plus (matches r1) (S (String.length s)) s
  | Group n r1 =>
      map (fun x : result => let '(m, rest, g) := x in (m, rest, (n, m) :: g))
          (matches r1 s)
  end.

(** A match object: where the match starts, the text matched, the groups. *)
Record Match : Type := mkMatch {
  m_start : nat;
  m_text : string;
  m_groups : list (nat * string)
}.

(** [match.group(n)] for [n >= 1]: [None] when the group took no part. *)
Fixpoint group_lookup (g : list (nat * string)) (n : nat) : option string :=
  match g with
  | [] => None
  | (k, v) :: g' => if Nat.eqb k n then Some v else group_lookup g' n
  end.

Definition group (m : Match) (n : nat) : option string :=
  group_lookup (m_groups m) n.

(** [re.search]: the first way of matching at the leftmost position that
    has one. *)
Fixpoint search_from (r : regex) (pos : nat) (s : string) : option Match :=
  match matches r s with
  | (m, _, g) :: _ => Some (mkMatch pos m g)
  | [] =>
      match s with
      | EmptyString => None
      | String _ s' => search_from r (S pos) s'
      end
  end.

Definition search (r : regex) (s : string) : option Match := search_from r 0 s.

(** [re.sub(r, repl, s)] for a literal replacement: scan left to right,
    replace each leftmost non-overlapping match.  [skip] counts the
    characters of the subject still covered by the last match. *)
Fixpoint sub_from (r : regex) (repl : string) (skip : nat) (s : string) : string :=
  match s with
  | EmptyString =>
      match skip, matches r EmptyString with
      | 0, _ :: _ => repl
      | _, _ => EmptyString
      end
  | String c s' =>
      match skip with
      | S k => sub_from r repl k s'
      | 0 =>
          match matches r s with
          | (m, _, _) :: _ =>
              match String.length m with
              | 0 => repl ++ String c (sub_from r repl 0 s')
              | S k => repl ++ sub_from r repl k s'
              end
          | [] => String c (sub_from r repl 0 s')
          end
      end
  end.

Definition sub (r : regex) (repl s : string) : string := sub_from r repl 0 s.

End Re.

(* ================================================================== *)
(** ** extract_spotify_id, sanitize_filename *)

(** The pattern of [extract_spotify_id]:
    open\.spotify\.com/(track|album|playlist)/([a-zA-Z0-9]+) *)
Definition spotify_regex : Re.regex :=
  Re.Cat (Re.lit "open.spotify.com/")
    (Re.Cat (Re.Group 1 (Re.Alt (Re.lit "track")
                           (Re.Alt (Re.lit "album") (Re.lit "playlist"))))
       (Re.Cat (Re.Chr "/")
          (Re.Group 2 (Re.Plus (Re.Cls [Re.Range "a" "z"; Re.Range "A" "Z";
                                        Re.Range "0" "9"]))))).

Definition extract_spotify_id (url : string) : option string * option string :=
  match Re.search spotify_regex url with
  | Some m => (Re.group m 1, Re.group m 2)
  | None => (None, None)
  end.

(** The character set of the pattern in [sanitize_filename]: backslash,
    slash, star, question mark, colon, double quote, less-than,
    greater-than, vertical bar. *)
Definition illegal_regex : Re.regex :=
  Re.Cls [Re.One "\"; Re.One "/"; Re.One "*"; Re.One "?"; Re.One ":";
          Re.One Str.dquote; Re.One "<"; Re.One ">"; Re.One "|"].

Definition sanitize_filename (name : string) : string :=
  Re.sub illegal_regex "" name.

(* ================================================================== *)
(** ** Values the program receives from the services

    The program reads a few keys of the JSON objects that spotipy and
    yt_dlp return.  A key read with [d.get(k)] may be absent ([None]); a
    key read with [d[k]] is a field. *)

Record Artist : Type := mkArtist {
  artist_name : string                      (* a["name"] *)
}.

(** A full track object, as [sp.track] and playlist items give it. *)
Record Track : Type := mkTrack {
  track_artists : option (list Artist);     (* track.get("artists", []) *)
  track_name : option string                (* track.get("name", ...) *)
}.

(** An entry of [sp.album_tracks(id)['items']]. *)
Record TrackInfo : Type := mkTrackInfo {
  info_id : option string                   (* track_info.get("id") *)
}.

Record Album : Type := mkAlbum {
  album_name : option string                (* album.get("name", ...) *)
}.

(** A dict found where a track object is expected: the empty dict, which
    is falsy, or a dict with keys, which is truthy. *)
Inductive TrackObject : Type :=
| NoKeys
| WithKeys (track : Track).

Record PlaylistItem : Type := mkPlaylistItem {
  item_track : option TrackObject           (* item.get("track") *)
}.

Record Playlist : Type := mkPlaylist {
  playlist_name : option string;            (* playlist.get("name", ...) *)
  playlist_items : list PlaylistItem        (* playlist["tracks"]["items"] *)
}.

(** An entry of a yt_dlp search result, and the result itself;
    [extract_info] may also return [None]. *)
Record Video : Type := mkVideo {
  webpage_url : option string               (* video.get("webpage_url") *)
}.

Record Info : Type := mkInfo {
  entries : option (list Video)             (* "entries" in info, info["entries"] *)
}.

(** [d.get(k, default)]. *)
Definition get_or {A : Type} (default : A) (v : option A) : A :=
  match v with Some x => x | None => default end.

(** Truthiness of [d.get(k)] for a string value: present and non-empty. *)
Definition truthy_opt (v : option string) : bool :=
  match v with Some s => Str.truthy s | None => false end.

(** [str(v)] inside an f-string, for a string or [None]. *)
Definition str_opt (v : option string) : string := get_or "None" v.

(** [str(n)] for a length. *)
Definition str_nat (n : nat) : string := NilEmpty.string_of_uint (Nat.to_uint n).

(* ================================================================== *)
(** ** build_query *)

(** [", ".join([a["name"] for a in track.get("artists", [])])] *)
Definition artists_of (track : Track) : string :=
  Str.join ", " (map artist_name (get_or [] (track_artists track))).

Definition build_query (track : Track) : string :=
  let artist := artists_of track in
  let title := get_or "" (track_name track) in
  artist ++ " - " ++ title ++ " official audio".

(* ================================================================== *)
(** ** Exceptions, the world, and the program monad *)

(** A Python exception (a subclass of [Exception]) with its message. *)
Record exn : Type := mkExn {
  exn_class : string;
  exn_msg : string                          (* str(e) *)
}.

Inductive result (A : Type) : Type :=
| Ok (a : A)
| Raise (e : exn).
Arguments Ok {A} a.
Arguments Raise {A} e.

Inductive level : Type := INFO | ERROR.

(** What the program does to the outside, in the order it does it.  Every
    call of a service is recorded with its answer. *)
Inductive event : Type :=
| Log (lvl : level) (msg : string)
| SpTrack (id : string) (r : result Track)
| SpAlbum (id : string) (r : result Album)
| SpAlbumTracks (id : string) (r : result (list TrackInfo))
| SpPlaylist (id : string) (r : result Playlist)
| Exists (path : string) (r : bool)
| Makedirs (path : string) (r : result unit)
| ExtractInfo (outtmpl query : string) (r : result (option Info))
| Download (outtmpl : string) (url : option string) (r : result unit).

Section Program.

(** The state of the filesystem. *)
Variable FS : Type.

Record World : Type := mkWorld {
  fs : FS;
  trace : list event
}.

(** The services the program calls: [os], the spotipy client [sp], and a
    [yt_dlp.YoutubeDL] object made with the given output template.  Their
    answers may depend on everything that happened so far. *)
Record Services : Type := mkServices {
  os_getcwd : World -> string;
  os_path_exists : FS -> string -> bool;
  os_makedirs : FS -> string -> result FS;
  sp_track : World -> string -> result Track;
  sp_album : World -> string -> result Album;
  sp_album_tracks : World -> string -> result (list TrackInfo);
  sp_playlist : World -> string -> result Playlist;
  ydl_extract_info : World -> string -> string -> result (option Info);
  ydl_download : World -> string -> option string -> FS * result unit
}.

Variable E : Services.

Definition M (A : Type) : Type := World -> World * result A.

Definition ret {A : Type} (a : A) : M A := fun w => (w, Ok a).

Definition raise {A : Type} (e : exn) : M A := fun w => (w, Raise e).

Definition bind {A B : Type} (m : M A) (k : A -> M B) : M B :=
  fun w =>
    match m w with
    | (w', Ok a) => k a w'
    | (w', Raise e) => (w', Raise e)
    end.

(** [try: m except Exception as e: h e] *)
Definition try_except {A : Type} (m : M A) (h : exn -> M A) : M A :=
  fun w =>
    match m w with
    | (w', Ok a) => (w', Ok a)
    | (w', Raise e) => h e w'
    end.

Definition emit (e : event) (w : World) : World :=
  mkWorld (fs w) (trace w ++ [e]).

(** A call of a service that leaves the filesystem alone. *)
Definition call {A : Type} (ask : World -> result A) (ev : result A -> event) : M A :=
  fun w => let r := ask w in (emit (ev r) w, r).

Definition logger_info (msg : string) : M unit :=
  fun w => (emit (Log INFO msg) w, Ok tt).

Definition logger_error (msg : string) : M unit :=
  fun w => (emit (Log ERROR msg) w, Ok tt).

Definition path_exists (path : string) : M bool :=
  fun w => let b := os_path_exists E (fs w) path in (emit (Exists path b) w, Ok b).

Definition makedirs (path : string) : M unit :=
  fun w =>
    match os_makedirs E (fs w) path with
    | Ok fs' => (mkWorld fs' (trace w ++ [Makedirs path (Ok tt)]), Ok tt)
    | Raise e => (emit (Makedirs path (Raise e)) w, Raise e)
    end.

Definition extract_info (outtmpl query : string) : M (option Info) :=
  call (fun w => ydl_extract_info E w outtmpl query) (ExtractInfo outtmpl query).

Definition download (outtmpl : string) (url : option string) : M unit :=
  fun w =>
    let '(fs', r) := ydl_download E w outtmpl url in
    (mkWorld fs' (trace w ++ [Download outtmpl url r]), r).

Notation "x <- m ;; k" := (bind m (fun x => k))
  (at level 61, m at next level, right associativity).
Notation "m ;;; k" := (bind m (fun _ => k))
  (at level 61, right associativity).

(* ------------------------------------------------------------------ *)
(** *** get_items_from_spotify *)

Definition call_sp_track (id : string) : M Track :=
  call (fun w => sp_track E w id) (SpTrack id).

(** The loop over [album_tracks]: one [sp.track] per entry whose id is
    truthy, appended to [items]. *)
Fixpoint album_loop (album_tracks : list TrackInfo) (items : list Track)
  : M (list Track) :=
  match album_tracks with
  | [] => ret items
  | track_info :: rest =>
      match info_id track_info with
      | Some tid =>
          if Str.truthy tid then
            track_obj <- call_sp_track tid ;;
            album_loop rest (items ++ [track_obj])
          else album_loop rest items
      | None => album_loop rest items
      end
  end.

(** The loop over [playlist["tracks"]["items"]]: [if track_obj] holds for
    a dict with keys; an absent or null track and the empty dict are
    skipped. *)
Fixpoint playlist_loop (l : list PlaylistItem) (items : list Track) : list Track :=
  match l with
  | [] => items
  | item :: rest =>
      match item_track item with
      | Some (WithKeys track_obj) => playlist_loop rest (items ++ [track_obj])
      | Some NoKeys => playlist_loop rest items
      | None => playlist_loop rest items
      end
  end.

Definition fetch_items (url_type spotify_id : string) : M (list Track * string) :=
  if url_type =? "track" then
    track <- call_sp_track spotify_id ;;
    ret ([track], get_or "Unknown Track" (track_name track))
  else if url_type =? "album" then
    album <- call (fun w => sp_album E w spotify_id) (SpAlbum spotify_id) ;;
    let name := get_or "Unknown Album" (album_name album) in
    album_tracks <- call (fun w => sp_album_tracks E w spotify_id)
                         (SpAlbumTracks spotify_id) ;;
    items <- album_loop album_tracks [] ;;
    ret (items, name)
  else if url_type =? "playlist" then
    playlist <- call (fun w => sp_playlist E w spotify_id) (SpPlaylist spotify_id) ;;
    let name := get_or "Unknown Playlist" (playlist_name playlist) in
    ret (playlist_loop (playlist_items playlist) [], name)
  else raise (mkExn "ValueError" "Unknown Spotify URL type encountered.").

Definition get_items_from_spotify (url_type spotify_id : string)
  : M (list Track * string) :=
  try_except
    (x <- fetch_items url_type spotify_id ;;
     logger_info ("Found " ++ str_nat (List.length (fst x)) ++ " track(s) in "
                  ++ url_type ++ " '" ++ snd x ++ "'") ;;;
     ret x)
    (fun e =>
       logger_error ("Error fetching items from Spotify: " ++ exn_msg e) ;;;
       raise e).

(* ------------------------------------------------------------------ *)
(** *** download_song *)

Definition final_path (downloads_dir base_filename : string) : string :=
  Os.path_join downloads_dir (base_filename ++ ".mp3").

Definition output_template (downloads_dir base_filename : string) : string :=
  Os.path_join downloads_dir (base_filename ++ ".%(ext)s").

(** The body of the [try]: [Some path] stands for [return final_path],
    [None] for falling through to the final [return None].  Of the options
    of the YoutubeDL object only the output template varies; the others
    (format, quality, retries, the ffmpeg location) are constants. *)
Definition download_song_try (query downloads_dir base_filename : string)
  : M (option string) :=
  let outtmpl := output_template downloads_dir base_filename in
  info <- extract_info outtmpl ("ytsearch:" ++ query) ;;
  match info with
  | None => raise (mkExn "TypeError" "argument of type 'NoneType' is not iterable")
  | Some info =>
      match entries info with
      | Some (video :: _) =>
          let video_url := webpage_url video in
          logger_info ("Found video: " ++ str_opt video_url) ;;;
          download outtmpl video_url ;;;
          ex <- path_exists (final_path downloads_dir base_filename) ;;
          if ex then ret (Some (final_path downloads_dir base_filename))
          else ret None
      | _ => ret None
      end
  end.

Definition download_song (query downloads_dir base_filename : string)
  : M (option string) :=
  try_except
    (download_song_try query downloads_dir base_filename)
    (fun e => logger_error ("Error downloading song: " ++ exn_msg e) ;;; ret None).

(* ------------------------------------------------------------------ *)
(** *** ThreadPoolExecutor

    A submitted task is pending until a worker has run it.  Tasks are run
    whole, one after the other, in an order the scheduler chooses:
    [sched] lists the futures that complete before the orchestrator starts
    to wait.  Waiting for a future has no effect of its own, so the tasks
    still pending are run in the order they are waited for, and the
    results are read afterwards. *)

Inductive Future (A : Type) : Type :=
| Pending (task : M A)
| Done (r : result A).
Arguments Pending {A} task.
Arguments Done {A} r.

Fixpoint run_at {A : Type} (i : nat) (pool : list (Future A)) (w : World)
  : World * list (Future A) :=
  match pool with
  | [] => (w, [])
  | f :: pool' =>
      match i with
      | 0 =>
          match f with
          | Pending task => let '(w', r) := task w in (w', Done r :: pool')
          | Done _ => (w, pool)
          end
      | S j => let '(w', p') := run_at j pool' w in (w', f :: p')
      end
  end.

Fixpoint run_sched {A : Type} (sched : list nat) (pool : list (Future A)) (w : World)
  : World * list (Future A) :=
  match sched with
  | [] => (w, pool)
  | i :: sched' => let '(w', pool') := run_at i pool w in run_sched sched' pool' w'
  end.

(** [future.result()] for each future, in submission order. *)
Fixpoint join_all {A : Type} (pool : list (Future A)) (w : World)
  : World * list (result A) :=
  match pool with
  | [] => (w, [])
  | Pending task :: pool' =>
      let '(w1, r) := task w in
      let '(w2, rs) := join_all pool' w1 in (w2, r :: rs)
  | Done r :: pool' =>
      let '(w2, rs) := join_all pool' w in (w2, r :: rs)
  end.

(** [executor.submit] for every task, then every task run to its end. *)
Definition run_pool {A : Type} (tasks : list (M A)) (sched : list nat) (w : World)
  : World * list (result A) :=
  let '(w1, pool) := run_sched sched (map Pending tasks) w in
  join_all pool w1.

(* ------------------------------------------------------------------ *)
(** *** main *)

Definition base_filename_of (track : Track) : string :=
  let artist := artists_of track in
  let title := get_or "" (track_name track) in
  sanitize_filename (artist ++ " - " ++ title).

(** The branch for a single track. *)
Definition download_single (downloads_dir : string) (items : list Track) : M unit :=
  match items with
  | [] => raise (mkExn "IndexError" "list index out of range")
  | track :: _ =>
      let query := build_query track in
      logger_info ("Search query: " ++ query) ;;;
      let base_filename := base_filename_of track in
      output_path <- download_song query downloads_dir base_filename ;;
      if truthy_opt output_path
      then logger_info ("Downloaded song to " ++ str_opt output_path)
      else logger_error "Failed to download the song."
  end.

Definition process_track (collection_folder : string) (track : Track)
  : M (option string) :=
  let q := build_query track in
  let base_fn := base_filename_of track in
  logger_info ("Downloading track: " ++ base_fn) ;;;
  download_song q collection_folder base_fn.

(** The loop over the futures: a truthy result is appended, an exception
    of a task is raised again. *)
Fixpoint collect (results : list (result (option string))) (downloaded : list string)
  : result (list string) :=
  match results with
  | [] => Ok downloaded
  | Ok r :: rest =>
      if truthy_opt r then collect rest (downloaded ++ [str_opt r])
      else collect rest downloaded
  | Raise e :: _ => Raise e
  end.

Definition report (downloaded : list string) (collection_folder : string) : M unit :=
  match downloaded with
  | _ :: _ =>
      logger_info ("Successfully downloaded " ++ str_nat (List.length downloaded)
                   ++ " tracks to '" ++ collection_folder ++ "'")
  | [] => logger_error "Failed to download any tracks from the collection."
  end.

(** The fan-out over the worker pool and the collection of the results. *)
Definition download_many (collection_folder : string) (items : list Track)
           (sched : list nat) : M (list string) :=
  fun w =>
    let '(w', results) := run_pool (map (process_track collection_folder) items) sched w in
    (w', collect results []).

(** The branch for an album or a playlist, once its folder is there. *)
Definition download_collection (collection_folder : string) (items : list Track)
           (sched : list nat) : M unit :=
  logger_info ("Downloading " ++ str_nat (List.length items) ++ " tracks into folder '"
               ++ collection_folder ++ "'") ;;;
  downloaded <- download_many collection_folder items sched ;;
  report downloaded collection_folder.

(** [if not os.path.exists(d): os.makedirs(d)] *)
Definition ensure_dir (d : string) : M unit :=
  ex <- path_exists d ;;
  if ex then ret tt else makedirs d.

Definition is_single (url_type : string) (items : list Track) : bool :=
  (url_type =? "track") || (List.length items =? 1)%nat.

Definition collection_folder_of (downloads_dir collection_name : string) : string :=
  Os.path_join downloads_dir (sanitize_filename collection_name).

(** [main] from the line read at the prompt on (main.py lines 117 to
    174), given that line and the scheduler's choices for the worker pool.
    What comes before, building the spotipy client and [input()] itself,
    is not part of it. *)
Definition main (line : string) (sched : list nat) : M unit :=
  let spotify_url := Str.strip line in
  let '(url_type, spotify_id) := extract_spotify_id spotify_url in
  if negb (truthy_opt url_type) || negb (truthy_opt spotify_id) then
    logger_error "Invalid Spotify URL."
  else
    let url_type := str_opt url_type in
    let spotify_id := str_opt spotify_id in
    fetched <- try_except
                 (x <- get_items_from_spotify url_type spotify_id ;; ret (Some x))
                 (fun e => logger_error ("Failed to fetch items: " ++ exn_msg e) ;;;
                           ret None) ;;
    match fetched with
    | None => ret tt
    | Some (items, collection_name) =>
        fun w =>
          let downloads_dir := Os.path_join (os_getcwd E w) "downloads" in
          (ensure_dir downloads_dir ;;;
           if is_single url_type items then download_single downloads_dir items
           else
             let collection_folder := collection_folder_of downloads_dir collection_name in
             ensure_dir collection_folder ;;;
             download_collection collection_folder items sched) w
    end.

End Program.

Arguments mkWorld {FS} fs trace.
Arguments fs {FS} w.
Arguments trace {FS} w.

Arguments mkServices {FS}.
Arguments os_getcwd {FS} s.
Arguments os_path_exists {FS} s.
Arguments os_makedirs {FS} s.
Arguments sp_track {FS} s.
Arguments sp_album {FS} s.
Arguments sp_album_tracks {FS} s.
Arguments sp_playlist {FS} s.
Arguments ydl_extract_info {FS} s.
Arguments ydl_download {FS} s.
Arguments ret {FS A} a w.
Arguments raise {FS A} e w.
Arguments bind {FS A B} m k w.
Arguments try_except {FS A} m h w.
Arguments call {FS A} ask ev w.
Arguments emit {FS} e w.
Arguments logger_info {FS} msg w.
Arguments logger_error {FS} msg w.
Arguments report {FS} downloaded collection_folder w.
Arguments path_exists {FS} E.
Arguments makedirs {FS} E.
Arguments extract_info {FS} E.
Arguments download {FS} E.
Arguments call_sp_track {FS} E.
Arguments album_loop {FS} E.
Arguments fetch_items {FS} E.
Arguments get_items_from_spotify {FS} E.
Arguments download_song_try {FS} E.
Arguments download_song {FS} E.
Arguments process_track {FS} E.
Arguments download_single {FS} E.
Arguments download_many {FS} E.
Arguments download_collection {FS} E.
Arguments ensure_dir {FS} E.
Arguments main {FS} E.
Arguments Pending {FS A} task.
Arguments Done {FS A} r.
Arguments run_at {FS A} i pool w.
Arguments run_sched {FS A} sched pool w.
Arguments join_all {FS A} pool w.
Arguments run_pool {FS A} tasks sched w.

(* ================================================================== *)
(** ** A concrete environment

    A POSIX-like filesystem and fixed answers of the services, on which
    the program can be run. *)

Module Posix.

(** The paths that exist, each as its components from the root. *)
Definition FS : Type := list (list string).

(** [p.split("/")], the component being read in [cur]. *)
Fixpoint split_sep (p cur : string) : list string :=
  match p with
  | EmptyString => [cur]
  | String c p' =>
      if Ascii.eqb c "/" then cur :: split_sep p' EmptyString
      else split_sep p' (cur ++ String c EmptyString)
  end.

(** Path resolution: empty components and "." are skipped, ".." goes up.
    [up] is the path walked so far, innermost component first. *)
Fixpoint resolve (comps up : list string) : list string :=
  match comps with
  | [] => rev up
  | c :: comps' =>
      if (c =? "") || (c =? ".") then resolve comps' up
      else if c =? ".." then resolve comps' (tl up)
      else resolve comps' (c :: up)
  end.

Definition norm (p : string) : list string := resolve (split_sep p EmptyString) [].

Definition path_eqb (a b : list string) : bool :=
  if list_eq_dec string_dec a b then true else false.

Definition mem (n : list string) (f : FS) : bool := existsb (path_eqb n) f.

(** [os.path.exists]; the root always exists. *)
Definition path_exists (f : FS) (p : string) : bool :=
  match norm p with
  | [] => true
  | n => mem n f
  end.

(** The ancestors of a resolved path, outermost first, the path last. *)
Fixpoint ancestors (n : list string) (up : list string) : list (list string) :=
  match n with
  | [] => []
  | c :: n' => (up ++ [c])%list :: ancestors n' (up ++ [c])%list
  end.

Definition add_missing (f : FS) (l : list (list string)) : FS :=
  fold_left (fun f n => if mem n f then f else (f ++ [n])%list) l f.

(** [os.makedirs]: raises when the path exists already. *)
Definition makedirs (f : FS) (p : string) : result FS :=
  if path_exists f p then Raise (mkExn "FileExistsError" p)
  else Ok (add_missing f (ancestors (norm p) [])).

(** A file written at [p]. *)
Definition write_file (f : FS) (p : string) : FS := add_missing f [norm p].

End Posix.

Module Demo.

Definition cwd : string := "/home/user".

(** The output file yt_dlp writes for a template: the extension
    placeholder replaced by mp3. *)
Fixpoint fill_template (outtmpl : string) : string :=
  if outtmpl =? ".%(ext)s" then ".mp3"
  else
    match outtmpl with
    | EmptyString => EmptyString
    | String c s => String c (fill_template s)
    end.

(** Services with fixed answers: the catalog, the search results per
    query, and whether the download of a video succeeds. *)
Definition services
    (tracks : string -> result Track)
    (album : result Album) (listing : result (list TrackInfo))
    (playlist : result Playlist)
    (search : string -> result (option Info))
    (fetch : option string -> result unit)
  : Services Posix.FS :=
  {| os_getcwd := fun _ => cwd;
     os_path_exists := Posix.path_exists;
     os_makedirs := Posix.makedirs;
     sp_track := fun _ id => tracks id;
     sp_album := fun _ _ => album;
     sp_album_tracks := fun _ _ => listing;
     sp_playlist := fun _ _ => playlist;
     ydl_extract_info := fun _ _ q => search q;
     ydl_download := fun w outtmpl url =>
       match fetch url with
       | Ok tt => (Posix.write_file (fs w) (fill_template outtmpl), Ok tt)
       | Raise e => (fs w, Raise e)
       end |}.

(** A world in which only the working directory exists. *)
Definition fresh : World Posix.FS := mkWorld [["home"]; ["home"; "user"]] [].

Definition song (artist title : string) : Track :=
  mkTrack (Some [mkArtist artist]) (Some title).

(** A catalog in which every id resolves to the same track. *)
Definition any_track : string -> result Track := fun _ => Ok (song "A" "Song").

(** An album listing whose first entry carries no id. *)
Definition listing_with_gap : list TrackInfo :=
  [mkTrackInfo None; mkTrackInfo (Some "t1")].

Definition album_env : Services Posix.FS :=
  services any_track (Ok (mkAlbum (Some "Album"))) (Ok listing_with_gap)
           (Raise (mkExn "SpotifyException" "http status: 404"))
           (fun _ => Ok (Some (mkInfo (Some [])))) (fun _ => Ok tt).

Definition no_track : string -> result Track :=
  fun _ => Raise (mkExn "SpotifyException" "http status: 404").
Definition no_album : result Album := Raise (mkExn "SpotifyException" "http status: 404").
Definition no_listing : result (list TrackInfo) :=
  Raise (mkExn "SpotifyException" "http status: 404").
Definition no_playlist : result Playlist :=
  Raise (mkExn "SpotifyException" "http status: 404").

(** A search that finds one video for every query, and one that finds
    none. *)
Definition one_hit : string -> result (option Info) :=
  fun _ => Ok (Some (mkInfo (Some [mkVideo (Some "https://video.example/watch?v=1")]))).
Definition no_hit : string -> result (option Info) :=
  fun _ => Ok (Some (mkInfo (Some []))).

Definition fetch_ok : option string -> result unit := fun _ => Ok tt.

(** Environments for a single download: the search finds nothing; the
    search finds a video and the download succeeds; the search finds a
    video and the transcoding fails. *)
Definition silent_env : Services Posix.FS :=
  services no_track no_album no_listing no_playlist no_hit fetch_ok.
Definition ok_env : Services Posix.FS :=
  services no_track no_album no_listing no_playlist one_hit fetch_ok.

Definition fetch_fails : option string -> result unit :=
  fun _ => Raise (mkExn "DownloadError" "ERROR: Postprocessing: audio conversion failed").

(** An environment in which the download writes the file and then
    raises. *)
Definition late_failure_env : Services Posix.FS :=
  {| os_getcwd := fun _ => cwd;
     os_path_exists := Posix.path_exists;
     os_makedirs := Posix.makedirs;
     sp_track := fun _ id => no_track id;
     sp_album := fun _ _ => no_album;
     sp_album_tracks := fun _ _ => no_listing;
     sp_playlist := fun _ _ => no_playlist;
     ydl_extract_info := fun _ _ q => one_hit q;
     ydl_download := fun w outtmpl _ =>
       (Posix.write_file (fs w) (fill_template outtmpl),
        Raise (mkExn "DownloadError" "ERROR: Postprocessing: cleanup failed")) |}.

(** A world in which an earlier run left the folder of the collection
    "My Mix". *)
Definition rerun : World Posix.FS :=
  mkWorld [["home"]; ["home"; "user"]; ["home"; "user"; "downloads"];
           ["home"; "user"; "downloads"; "My Mix"]] [].

(** A world in which an earlier run left the file of a track. *)
Definition stale : World Posix.FS :=
  mkWorld [["home"]; ["home"; "user"]; ["home"; "user"; "downloads"];
           ["home"; "user"; "downloads"; "A - S.mp3"]] [].

Definition failing_env : Services Posix.FS :=
  services no_track no_album no_listing no_playlist one_hit fetch_fails.

(** A playlist under the given name with two tracks, between them an item
    without a track and an item whose track is the empty dict. *)
Definition playlist_env (name : string) : Services Posix.FS :=
  services no_track no_album no_listing
           (Ok (mkPlaylist (Some name)
                  [mkPlaylistItem (Some (WithKeys (song "A" "S1")));
                   mkPlaylistItem None;
                   mkPlaylistItem (Some NoKeys);
                   mkPlaylistItem (Some (WithKeys (song "B" "S2")))]))
           one_hit fetch_ok.

(** Two tracks, and a schedule that completes the second before the
    first. *)
Definition two_tracks : list Track := [song "A" "S1"; song "B" "S2"].
Definition second_first : list nat := [1; 0].

End Demo.

(* ================================================================== *)
(** ** The vocabulary of the properties *)

(** The three catalog item types of the pattern. *)
Definition item_types : list string := ["track"; "album"; "playlist"].

(** An ASCII letter or digit. *)
Definition is_alnum (c : ascii) : bool :=
  let n := nat_of_ascii c in
  (Nat.leb 97 n && Nat.leb n 122) || (Nat.leb 65 n && Nat.leb n 90)
  || (Nat.leb 48 n && Nat.leb n 57).

(** [s] has an occurrence of open.spotify.com/<type>/<identifier> after
    [pre], with type [ty] and a non-empty alphanumeric identifier [ident]. *)
Definition catalog_match (s pre ty ident post : string) : Prop :=
  s = pre ++ "open.spotify.com/" ++ ty ++ "/" ++ ident ++ post
  /\ In ty item_types
  /\ ident <> EmptyString
  /\ Str.all is_alnum ident = true.

Definition contains_catalog_match (s : string) : Prop :=
  exists pre ty ident post, catalog_match s pre ty ident post.

(** The substrings the pattern captures in [s]: those of the leftmost
    occurrence, with the identifier running as far as it can. *)
Definition captures (s ty ident : string) : Prop :=
  exists pre post,
    catalog_match s pre ty ident post
    /\ Str.stops is_alnum post
    /\ forall pre' ty' ident' post',
         catalog_match s pre' ty' ident' post' ->
         String.length pre <= String.length pre'.

(** The nine characters the sanitizer removes. *)
Definition illegal_chars : list ascii :=
  ["\"; "/"; "*"; "?"; ":"; Str.dquote; "<"; ">"; "|"]%char.

Definition is_illegal (c : ascii) : bool := existsb (Ascii.eqb c) illegal_chars.

(** [s] without its illegal characters, nothing else touched. *)
Definition remove_illegal (s : string) : string :=
  Str.filter (fun c => negb (is_illegal c)) s.

(** The ids for which the album loop asks the full record: those of the
    listing entries that carry a non-empty id. *)
Definition lookup_ids (listing : list TrackInfo) : list string :=
  flat_map (fun track_info =>
              match info_id track_info with
              | Some tid => if Str.truthy tid then [tid] else []
              | None => []
              end) listing.

(** The [sp.track] calls of a trace, by id, in order. *)
Definition sp_track_calls (tr : list event) : list string :=
  flat_map (fun e => match e with SpTrack id _ => [id] | _ => [] end) tr.

(** The events of successful [sp.track] calls with the given answers. *)
Definition lookups (ids : list string) (records : list Track) : list event :=
  map (fun p => SpTrack (fst p) (Ok (snd p))) (combine ids records).

(** The download-and-transcode step of [download_song] completes, leaving
    the filesystem [fs']: the search returns at least one video and the
    download of the first one returns without raising. *)
Definition step_completes {FS : Type} (E : Services FS)
           (query downloads_dir base_filename : string) (w : World FS) (fs' : FS) : Prop :=
  let o := output_template downloads_dir base_filename in
  let q := "ytsearch:" ++ query in
  exists info video rest u,
    ydl_extract_info E w o q = Ok (Some info)
    /\ entries info = Some (video :: rest)
    /\ ydl_download E
         (emit (Log INFO ("Found video: " ++ str_opt (webpage_url video)))
               (emit (ExtractInfo o q (Ok (Some info))) w))
         o (webpage_url video) = (fs', Ok u).

(** The search of [download_song] returns no video. *)
Definition no_results {FS : Type} (E : Services FS)
           (query downloads_dir base_filename : string) (w : World FS) : Prop :=
  exists info,
    ydl_extract_info E w (output_template downloads_dir base_filename)
                     ("ytsearch:" ++ query) = Ok (Some info)
    /\ (entries info = None \/ entries info = Some []).

(** The search or the download-and-transcode step of [download_song]
    raises [e]. *)
Definition step_raises {FS : Type} (E : Services FS)
           (query downloads_dir base_filename : string) (w : World FS) (e : exn) : Prop :=
  let o := output_template downloads_dir base_filename in
  let q := "ytsearch:" ++ query in
  ydl_extract_info E w o q = Raise e
  \/ exists info video rest fs',
      ydl_extract_info E w o q = Ok (Some info)
      /\ entries info = Some (video :: rest)
      /\ ydl_download E
           (emit (Log INFO ("Found video: " ++ str_opt (webpage_url video)))
                 (emit (ExtractInfo o q (Ok (Some info))) w))
           o (webpage_url video) = (fs', Raise e).

(** The log records of a trace. *)
Definition is_log (e : event) : bool :=
  match e with Log _ _ => true | _ => false end.

(** The paths among the results of the per-track downloads, in order. *)
Definition successes (results : list (option string)) : list string :=
  flat_map (fun r => match r with Some p => [p] | None => [] end) results.

Definition is_none (r : option string) : bool :=
  match r with None => true | Some _ => false end.

(** An event of a download of [base_filename] into [dir]: a log record, a
    search or a download with the output template of that file, or the
    check of its final path.  No directory is made and the catalog is not
    asked. *)
Definition song_event (dir base_filename : string) (e : event) : Prop :=
  match e with
  | Log _ _ => True
  | ExtractInfo o _ _ => o = output_template dir base_filename
  | Download o _ _ => o = output_template dir base_filename
  | Exists p _ => p = final_path dir base_filename
  | _ => False
  end.

(** An event of the downloads of [items] into [dir]. *)
Definition writes_into (dir : string) (items : list Track) (e : event) : Prop :=
  is_log e = true
  \/ exists track, In track items /\ song_event dir (base_filename_of track) e.

(** [w'] continues [w] with events that all satisfy [good]. *)
Definition extends {FS : Type} (good : event -> Prop) (w w' : World FS) : Prop :=
  exists evs, trace w' = (trace w ++ evs)%list /\ Forall good evs.

(** The report of the collection branch for [m] successes. *)
Definition report_event (m : nat) (collection_folder : string) : event :=
  match m with
  | 0 => Log ERROR "Failed to download any tracks from the collection."
  | S _ => Log INFO ("Successfully downloaded " ++ str_nat m ++ " tracks to '"
                     ++ collection_folder ++ "'")
  end.

(** A name that names a directory entry of its own: not empty, and not
    one of the two dot entries. *)
Definition proper_name (n : string) : Prop :=
  n <> "" /\ n <> "." /\ n <> "..".

(** The paths for which [os.makedirs] was called, in order. *)
Definition makedirs_calls (tr : list event) : list string :=
  flat_map (fun e => match e with Makedirs p _ => [p] | _ => [] end) tr.

(** The events of [if not os.path.exists(d): os.makedirs(d)] on the
    filesystem [f]: the check and, when the path does not exist, the
    creation with its outcome [mk]. *)
Definition ensure_events {FS : Type} (E : Services FS) (f : FS) (d : string)
           (evs : list event) : Prop :=
  if os_path_exists E f d then evs = [Exists d true]
  else exists mk, evs = [Exists d false; Makedirs d mk].

(** The two groups of a way of matching, as [extract_spotify_id] reads
    them. *)
Definition groups_of (x : Re.result) : option string * option string :=
  (Re.group_lookup (snd x) 1, Re.group_lookup (snd x) 2).

(** A future of the task of [x], for [x] in [dom]: still that task, or a
    result that satisfies [R]. *)
Definition future_of {FS A X : Type} (task_of : X -> M FS A)
           (R : X -> result A -> Prop) (dom : X -> Prop)
           (x : X) (f : Future FS A) : Prop :=
  match f with
  | Pending t => dom x /\ t = task_of x
  | Done r => R x r
  end.

(** What a per-track task gives: absence or the track's expected path. *)
Definition track_outcome {FS : Type} (E : Services FS) (folder : string)
           (track : Track) (r : result (option string)) : Prop :=
  (r = Ok None \/ r = Ok (Some (final_path folder (base_filename_of track))))
  /\ exists wa wb, process_track E folder track wa = (wb, r).

(** The pattern read as a function, used to reason about the matcher: the
    type and identifier of an occurrence that starts at the head of [s]. *)
Fixpoint type_prefix (tys : list string) (s : string) : option (string * string) :=
  match tys with
  | [] => None
  | ty :: tys' =>
      match Str.strip_prefix ty s with
      | Some r => Some (ty, r)
      | None => type_prefix tys' s
      end
  end.

Definition match_here (s : string) : option (string * string) :=
  match Str.strip_prefix "open.spotify.com/" s with
  | None => None
  | Some r1 =>
      match type_prefix item_types r1 with
      | None => None
      | Some (ty, r2) =>
          match Str.strip_prefix "/" r2 with
          | None => None
          | Some r3 =>
              match Str.span is_alnum r3 with
              | (EmptyString, _) => None
              | (ident, _) => Some (ty, ident)
              end
          end
      end
  end.

Fixpoint find_match (s : string) : option (string * string) :=
  match match_here s with
  | Some x => Some x
  | None =>
      match s with
      | EmptyString => None
      | String _ s' => find_match s'
      end
  end.

(** A character the sanitizer keeps. *)
Definition is_legal (c : ascii) : bool := negb (is_illegal c).

(** What [os.path.join] puts between a directory and a relative name. *)
Definition dir_sep (dir : string) : string :=
  if negb (Str.truthy dir) || Str.ends_with "/" dir then "" else "/".

(** The character "o" does not occur in [s]. *)
Definition no_letter_o (s : string) : bool :=
  Str.all (fun c => negb (Ascii.eqb c "o")) s.

(** The truthy track objects in the items of a playlist: those that are
    present, not null and not the empty dict. *)
Definition present_tracks (l : list PlaylistItem) : list Track :=
  flat_map (fun item =>
              match item_track item with
              | Some (WithKeys t) => [t]
              | _ => []
              end) l.

(** A call of the catalog service or a log record. *)
Definition is_catalog_event (e : event) : Prop :=
  match e with
  | Log _ _ | SpTrack _ _ | SpAlbum _ _ | SpAlbumTracks _ _ | SpPlaylist _ _ => True
  | _ => False
  end.

(** A call of the catalog service that raised [e]. *)
Definition call_raised (ev : event) (e : exn) : Prop :=
  match ev with
  | SpTrack _ (Raise e') | SpAlbum _ (Raise e') | SpAlbumTracks _ (Raise e')
  | SpPlaylist _ (Raise e') => e' = e
  | _ => False
  end.

(** The computation [m] leaves the filesystem alone and adds only events
    that satisfy [good]. *)
Definition quiet {FS A : Type} (good : event -> Prop) (m : M FS A) : Prop :=
  forall w w' r, m w = (w', r) -> fs w' = fs w /\ extends good w w'.

(** The downloads of a trace: output template and URL, in order. *)
Definition download_calls (tr : list event) : list (string * option string) :=
  flat_map (fun e => match e with Download o url _ => [(o, url)] | _ => [] end) tr.

(** The queries of the searches of a trace, in order. *)
Definition searches (tr : list event) : list string :=
  flat_map (fun e => match e with ExtractInfo _ q _ => [q] | _ => [] end) tr.

(** The last log record of the single-track branch for a download result. *)
Definition single_report (output_path : option string) : event :=
  match output_path with
  | Some p => Log INFO ("Downloaded song to " ++ p)
  | None => Log ERROR "Failed to download the song."
  end.

(** The search query of [download_song] for a track. *)
Definition search_of (track : Track) : string := "ytsearch:" ++ build_query track.

(** Computations run one after the other, whatever they return. *)
Fixpoint run_seq {FS A : Type} (tasks : list (M FS A)) (w : World FS) : World FS :=
  match tasks with
  | [] => w
  | t :: tasks' => run_seq tasks' (fst (t w))
  end.

(** Of the submitted [xs], those whose future is still pending. *)
Fixpoint pending {FS A X : Type} (xs : list X) (pool : list (Future FS A)) : list X :=
  match xs, pool with
  | x :: xs', Pending _ :: pool' => x :: pending xs' pool'
  | _ :: xs', Done _ :: pool' => pending xs' pool'
  | _, _ => []
  end.

(** The pending futures of [pool] hold the tasks of [xs]. *)
Definition pool_of {FS A X : Type} (task_of : X -> M FS A)
           (xs : list X) (pool : list (Future FS A)) : Prop :=
  Forall2 (fun x f => match f with Pending t => t = task_of x | Done _ => True end)
          xs pool.

(* ================================================================== *)
(** ** setup.py *)

Module Setup.

(** [s.replace(a, b)] for single characters. *)
Fixpoint replace_char (a b : ascii) (s : string) : string :=
  match s with
  | EmptyString => EmptyString
  | String c s' => String (if Ascii.eqb c a then b else c) (replace_char a b s')
  end.

(** The name [install_packages] imports for a package:
    [pkg.replace('-', '_')]. *)
Definition module_name (pkg : string) : string := replace_char "-" "_" pkg.

Definition required_packages : list string :=
  ["spotipy"; "yt-dlp"; "youtube-search-python"; "mutagen"; "flask"; "requests"].

(** What the script does to the outside, in order. *)
Inductive event : Type :=
| Exists (path : string) (r : bool)
| Makedirs (path : string) (r : result unit)
| Import (name : string) (r : result unit)
| Print (msg : string)
| CheckCall (args : list string) (r : result unit).

(** [except ImportError] catches ImportError and the built-in classes
    derived from it. *)
Definition is_import_error (e : exn) : bool :=
  (exn_class e =? "ImportError") || (exn_class e =? "ModuleNotFoundError")
  || (exn_class e =? "ZipImportError").

Section Script.

Variable FS : Type.

Record World : Type := mkWorld {
  fs : FS;
  trace : list event
}.

(** [os], [sys.executable], [__import__] and [subprocess.check_call]; a
    subprocess may change the filesystem. *)
Record Services : Type := mkServices {
  os_getcwd : World -> string;
  os_path_exists : FS -> string -> bool;
  os_makedirs : FS -> string -> result FS;
  sys_executable : string;
  import_ : World -> string -> result unit;
  check_call : World -> list string -> FS * result unit
}.

Variable E : Services.

Definition M (A : Type) : Type := World -> World * result A.

Definition ret {A : Type} (a : A) : M A := fun w => (w, Ok a).

Definition bind {A B : Type} (m : M A) (k : A -> M B) : M B :=
  fun w =>
    match m w with
    | (w', Ok a) => k a w'
    | (w', Raise e) => (w', Raise e)
    end.

Definition emit (e : event) (w : World) : World := mkWorld (fs w) (trace w ++ [e]).

Definition print (msg : string) : M unit := fun w => (emit (Print msg) w, Ok tt).

Definition do_import (name : string) : M unit :=
  fun w => let r := import_ E w name in (emit (Import name r) w, r).

Definition do_check_call (args : list string) : M unit :=
  fun w =>
    let '(fs', r) := check_call E w args in
    (mkWorld fs' (trace w ++ [CheckCall args r]), r).

Definition path_exists (path : string) : M bool :=
  fun w => let b := os_path_exists E (fs w) path in (emit (Exists path b) w, Ok b).

Definition makedirs (path : string) : M unit :=
  fun w =>
    match os_makedirs E (fs w) path with
    | Ok fs' => (mkWorld fs' (trace w ++ [Makedirs path (Ok tt)]), Ok tt)
    | Raise e => (emit (Makedirs path (Raise e)) w, Raise e)
    end.

(** The command line of the pip call for [pkg]. *)
Definition pip_args (libs_dir pkg : string) : list string :=
  [sys_executable E; "-m"; "pip"; "install"; "--target=" ++ libs_dir; pkg].

(** One turn of the loop of [install_packages]: the [try] covers the
    import and the first print, the handler catches ImportError only. *)
Definition install_package (libs_dir pkg : string) : M unit :=
  fun w =>
    match bind (do_import (module_name pkg))
               (fun _ => print (pkg ++ " is already installed.")) w with
    | (w', Ok a) => (w', Ok a)
    | (w', Raise e) =>
        if is_import_error e then
          bind (print ("Installing " ++ pkg ++ " into " ++ libs_dir ++ " ..."))
               (fun _ => do_check_call (pip_args libs_dir pkg)) w'
        else (w', Raise e)
    end.

Fixpoint install_packages (libs_dir : string) (packages : list string) : M unit :=
  match packages with
  | [] => ret tt
  | pkg :: rest =>
      bind (install_package libs_dir pkg) (fun _ => install_packages libs_dir rest)
  end.

Definition main_args : list string := [sys_executable E; "main.py"].

(** The script, top to bottom. *)
Definition script : M unit :=
  fun w =>
    let libs_dir := Os.path_join (os_getcwd E w) "libs" in
    bind (path_exists libs_dir) (fun ex =>
    bind (if ex then ret tt else makedirs libs_dir) (fun _ =>
    bind (install_packages libs_dir required_packages) (fun _ =>
    bind (print "All dependencies installed/updated in the 'libs' folder.") (fun _ =>
    bind (print "Launching main application...") (fun _ =>
    do_check_call main_args))))) w.

End Script.

Arguments mkWorld {FS} fs trace.
Arguments fs {FS} w.
Arguments trace {FS} w.
Arguments mkServices {FS}.
Arguments os_getcwd {FS} s.
Arguments os_path_exists {FS} s.
Arguments os_makedirs {FS} s.
Arguments sys_executable {FS} s.
Arguments import_ {FS} s.
Arguments check_call {FS} s.
Arguments ret {FS A} a w.
Arguments bind {FS A B} m k w.
Arguments emit {FS} e w.
Arguments print {FS} msg w.
Arguments do_import {FS} E name w.
Arguments do_check_call {FS} E args w.
Arguments path_exists {FS} E path w.
Arguments makedirs {FS} E path w.
Arguments pip_args {FS} E libs_dir pkg.
Arguments install_package {FS} E libs_dir pkg w.
Arguments install_packages {FS} E libs_dir packages.
Arguments main_args {FS} E.
Arguments script {FS} E w.

(** The names imported and their outcomes, in order. *)
Definition imports (tr : list event) : list (string * result unit) :=
  flat_map (fun e => match e with Import n r => [(n, r)] | _ => [] end) tr.

(** The command lines run, in order. *)
Definition commands (tr : list event) : list (list string) :=
  flat_map (fun e => match e with CheckCall args _ => [args] | _ => [] end) tr.

(** The import of a package succeeded, or failed with an ImportError. *)
Definition import_outcome (r : result unit) : Prop :=
  match r with
  | Ok _ => True
  | Raise e => is_import_error e = true
  end.

(** The packages whose import failed, given the outcomes of the imports. *)
Fixpoint missing (packages : list string) (outcomes : list (result unit)) : list string :=
  match packages, outcomes with
  | pkg :: packages', Raise _ :: outcomes' => pkg :: missing packages' outcomes'
  | _ :: packages', Ok _ :: outcomes' => missing packages' outcomes'
  | _, _ => []
  end.

(** An event that ends the script before main.py is launched: a directory
    that could not be made, an import that failed with another error than
    ImportError, a command other than [main] that failed. *)
Definition failure (main : list string) (ev : event) (e : exn) : Prop :=
  match ev with
  | Makedirs _ (Raise e') => e' = e
  | Import _ (Raise e') => e' = e /\ is_import_error e' = false
  | CheckCall args (Raise e') => e' = e /\ args <> main
  | _ => False
  end.

(** No event of [evs] is such a failure. *)
Definition clean (main : list string) (evs : list event) : Prop :=
  Forall (fun ev => forall e, ~ failure main ev e) evs.

(** An environment in which the modules listed are importable and pip
    succeeds, writing the package under the target directory. *)
Definition demo_env (installed : list string) : Services Posix.FS :=
  {| os_getcwd := fun _ => "/home/user";
     os_path_exists := Posix.path_exists;
     os_makedirs := Posix.makedirs;
     sys_executable := "/usr/bin/python3";
     import_ := fun _ name =>
       if existsb (String.eqb name) installed then Ok tt
       else Raise (mkExn "ModuleNotFoundError" ("No module named '" ++ name ++ "'"));
     check_call := fun w _ => (fs w, Ok tt) |}.

(** An environment in which no module is importable and every command
    fails. *)
Definition broken_env : Services Posix.FS :=
  {| os_getcwd := fun _ => "/home/user";
     os_path_exists := Posix.path_exists;
     os_makedirs := Posix.makedirs;
     sys_executable := "/usr/bin/python3";
     import_ := fun _ name =>
       Raise (mkExn "ModuleNotFoundError" ("No module named '" ++ name ++ "'"));
     check_call := fun w _ =>
       (fs w, Raise (mkExn "CalledProcessError" "returned non-zero exit status 1")) |}.

Definition fresh : World Posix.FS := mkWorld [["home"]; ["home"; "user"]] [].

End Setup.

(* ================================================================== *)
(** * Properties *)

(** ** Strings *)

Lemma append_nil_r (s : string) : s ++ "" = s.
Proof. induction s as [|c s IH]; simpl; [reflexivity | now rewrite IH]. Qed.

Lemma append_assoc (a b c : string) : (a ++ b) ++ c = a ++ b ++ c.
Proof. induction a as [|x a IH]; simpl; [reflexivity | now rewrite IH]. Qed.

Lemma length_append (a b : string) :
  String.length (a ++ b) = String.length a + String.length b.
Proof. induction a as [|x a IH]; simpl; [reflexivity | now rewrite IH]. Qed.

Lemma append_inv_length (a b c d : string) :
  a ++ b = c ++ d -> String.length a = String.length c -> a = c /\ b = d.
Proof.
  revert c; induction a as [|x a IH]; intros [|y c] H L; simpl in *;
    try discriminate; [now split|].
  injection H as -> H. injection L as L.
  destruct (IH _ H L) as [-> ->]. now split.
Qed.

Lemma strip_prefix_app (p r : string) : Str.strip_prefix p (p ++ r) = Some r.
Proof.
  induction p as [|c p IH]; simpl; [reflexivity|].
  now rewrite Ascii.eqb_refl.
Qed.

Lemma strip_prefix_Some (p s r : string) :
  Str.strip_prefix p s = Some r -> s = p ++ r.
Proof.
  revert s; induction p as [|c p IH]; intros s H; simpl in *.
  - now injection H as ->.
  - destruct s as [|d s]; [discriminate|].
    destruct (Ascii.eqb c d) eqn:E; [|discriminate].
    apply Ascii.eqb_eq in E; subst d. now rewrite (IH _ H).
Qed.

Lemma filter_filter (p : ascii -> bool) (s : string) :
  Str.filter p (Str.filter p s) = Str.filter p s.
Proof.
  induction s as [|c s IH]; simpl; [reflexivity|].
  destruct (p c) eqn:E; simpl; [rewrite E, IH|]; auto.
Qed.

Lemma filter_ext (p q : ascii -> bool) (s : string) :
  (forall c, p c = q c) -> Str.filter p s = Str.filter q s.
Proof.
  intros H; induction s as [|c s IH]; simpl; [reflexivity|].
  now rewrite H, IH.
Qed.

(** ** sanitize_filename *)

Lemma cset_illegal (c : ascii) :
  Re.cset_mem
    [Re.One "\"; Re.One "/"; Re.One "*"; Re.One "?"; Re.One ":";
     Re.One Str.dquote; Re.One "<"; Re.One ">"; Re.One "|"] c = is_illegal c.
Proof. reflexivity. Qed.

(** Substituting the empty string for every match of a character set
    keeps exactly the characters outside the set. *)
Lemma sub_cls_filter (items : list Re.citem) (s : string) :
  Re.sub (Re.Cls items) "" s = Str.filter (fun c => negb (Re.cset_mem items c)) s.
Proof.
  unfold Re.sub. induction s as [|c s IH]; [reflexivity|].
  cbn [Re.sub_from Re.matches Str.filter].
  destruct (Re.cset_mem items c); cbn; now rewrite IH.
Qed.

Lemma sanitize_filename_filter (s : string) :
  sanitize_filename s = remove_illegal s.
Proof.
  unfold sanitize_filename, illegal_regex, remove_illegal.
  rewrite sub_cls_filter. apply filter_ext. intros c. now rewrite cset_illegal.
Qed.

(** C2: [sanitize_filename] removes every occurrence of the nine characters
    backslash, slash, star, question mark, colon, double quote, less-than,
    greater-than and vertical bar, and keeps every other character, in
    order; 'A/B:C?' becomes 'ABC'. *)
Theorem sanitize_filename_removes_exactly_illegal :
  (forall s, sanitize_filename s = remove_illegal s)
  /\ List.length illegal_chars = 9
  /\ NoDup illegal_chars
  /\ sanitize_filename "A/B:C?" = "ABC".
Proof.
  split; [exact sanitize_filename_filter|].
  split; [reflexivity|]. split; [|vm_compute; reflexivity].
  unfold illegal_chars, Str.dquote.
  repeat (constructor; [cbn; intuition discriminate|]). constructor.
Qed.

(** C10: [sanitize_filename] is idempotent. *)
Theorem sanitize_filename_idempotent (s : string) :
  sanitize_filename (sanitize_filename s) = sanitize_filename s.
Proof.
  rewrite !sanitize_filename_filter. unfold remove_illegal. apply filter_filter.
Qed.

(** ** The matcher on the pattern of extract_spotify_id *)

Lemma matches_lit (p s : string) :
  Re.matches (Re.lit p) s =
  match Str.strip_prefix p s with
  | Some r => [(p, r, [])]
  | None => []
  end.
Proof.
  revert s; induction p as [|c p IH]; intros s; [reflexivity|].
  cbn [Re.lit Re.matches Str.strip_prefix].
  destruct s as [|d s]; [reflexivity|].
  destruct (Ascii.eqb c d) eqn:E; [|reflexivity].
  apply Ascii.eqb_eq in E; subst d. cbn [flat_map]. rewrite IH.
  destruct (Str.strip_prefix p s); reflexivity.
Qed.

Lemma cset_alnum (c : ascii) :
  Re.cset_mem [Re.Range "a" "z"; Re.Range "A" "Z"; Re.Range "0" "9"] c = is_alnum c.
Proof.
  unfold Re.cset_mem, is_alnum; cbn [existsb Re.citem_mem].
  change (nat_of_ascii "a") with 97; change (nat_of_ascii "z") with 122.
  change (nat_of_ascii "A") with 65; change (nat_of_ascii "Z") with 90.
  change (nat_of_ascii "0") with 48; change (nat_of_ascii "9") with 57.
  now rewrite orb_false_r, orb_assoc.
Qed.

Lemma hd_error_map_snoc {A B : Type} (f : A -> B) (l : list A) (x : B) :
  hd_error (map f l ++ [x]) = match hd_error l with Some a => Some (f a) | None => Some x end.
Proof. destruct l; reflexivity. Qed.

(** The first way a greedy set repetition matches is the longest run. *)
Lemma iter_plus_cls_hd (items : list Re.citem) (fuel : nat) (s : string) :
  String.length s < fuel ->
  hd_error (Re.iter_plus (Re.matches (Re.Cls items)) fuel s) =
  match Str.span (Re.cset_mem items) s with
  | (EmptyString, _) => None
  | (a, b) => Some (a, b, [])
  end.
Proof.
  revert s; induction fuel as [|n IH]; intros s L; [lia|].
  cbn [Re.iter_plus Re.matches].
  destruct s as [|d s]; [reflexivity|].
  cbn [Str.span]. destruct (Re.cset_mem items d); [|reflexivity].
  cbn [flat_map Str.truthy]. rewrite app_nil_r, hd_error_map_snoc.
  rewrite IH by (simpl in L; lia).
  destruct (Str.span (Re.cset_mem items) s) as [a b] eqn:E.
  destruct a as [|c a].
  - destruct s as [|e s]; cbn [Str.span] in E.
    + now inversion E.
    + destruct (Re.cset_mem items e).
      * destruct (Str.span (Re.cset_mem items) s); discriminate.
      * now inversion E.
  - reflexivity.
Qed.

Lemma span_ext (p q : ascii -> bool) (s : string) :
  (forall c, p c = q c) -> Str.span p s = Str.span q s.
Proof.
  intros H; induction s as [|c s IH]; cbn; [reflexivity|].
  now rewrite H, IH.
Qed.

Lemma strip_prefix_cons (c d : ascii) (p s : string) :
  Str.strip_prefix (String c p) (String d s) =
  if Ascii.eqb c d then Str.strip_prefix p s else None.
Proof. reflexivity. Qed.

Lemma matches_types (r : string) :
  Re.matches (Re.Alt (Re.lit "track") (Re.Alt (Re.lit "album") (Re.lit "playlist"))) r =
  match type_prefix item_types r with
  | Some (ty, r2) => [(ty, r2, [])]
  | None => []
  end.
Proof.
  cbn [Re.matches]. rewrite !matches_lit. unfold item_types, type_prefix.
  destruct r as [|c r]; [reflexivity|]. rewrite !strip_prefix_cons.
  destruct (Ascii.eqb "t" c) eqn:Et.
  { apply Ascii.eqb_eq in Et; subst c.
    change (Ascii.eqb "a" "t") with false. change (Ascii.eqb "p" "t") with false.
    destruct (Str.strip_prefix "rack" r); reflexivity. }
  destruct (Ascii.eqb "a" c) eqn:Ea.
  { apply Ascii.eqb_eq in Ea; subst c.
    change (Ascii.eqb "p" "a") with false.
    destruct (Str.strip_prefix "lbum" r); reflexivity. }
  destruct (Ascii.eqb "p" c); [|reflexivity].
  destruct (Str.strip_prefix "laylist" r); reflexivity.
Qed.

Lemma matches_Cat (r1 r2 : Re.regex) (s : string) :
  Re.matches (Re.Cat r1 r2) s =
  flat_map (fun x : Re.result =>
              let '(m1, rest, g1) := x in map (Re.extend m1 g1) (Re.matches r2 rest))
           (Re.matches r1 s).
Proof. reflexivity. Qed.

Lemma matches_Group (n : nat) (r : Re.regex) (s : string) :
  Re.matches (Re.Group n r) s =
  map (fun x : Re.result => let '(m, rest, g) := x in (m, rest, (n, m) :: g))
      (Re.matches r s).
Proof. reflexivity. Qed.

Lemma matches_Chr (c : ascii) (s : string) :
  Re.matches (Re.Chr c) s =
  match Str.strip_prefix (String c "") s with
  | Some r => [(String c "", r, [])]
  | None => []
  end.
Proof.
  destruct s as [|d s]; [reflexivity|]. cbn.
  destruct (Ascii.eqb c d) eqn:E; [|reflexivity].
  apply Ascii.eqb_eq in E. now subst.
Qed.

Lemma matches_Plus (r : Re.regex) (s : string) :
  Re.matches (Re.Plus r) s = Re.iter_plus (Re.matches r) (S (String.length s)) s.
Proof. reflexivity. Qed.

Lemma spotify_regex_hd (s : string) :
  option_map groups_of (hd_error (Re.matches spotify_regex s)) =
  option_map (fun x : string * string => (Some (fst x), Some (snd x))) (match_here s).
Proof.
  unfold spotify_regex, match_here.
  rewrite matches_Cat, matches_lit.
  destruct (Str.strip_prefix "open.spotify.com/" s) as [r1|]; [|reflexivity].
  cbn [flat_map]. rewrite app_nil_r, matches_Cat, matches_Group, matches_types.
  destruct (type_prefix item_types r1) as [[ty r2]|]; [|reflexivity].
  cbn [map flat_map]. rewrite app_nil_r, matches_Cat, matches_Chr.
  destruct (Str.strip_prefix "/" r2) as [r3|]; [|reflexivity].
  cbn [flat_map]. rewrite app_nil_r, matches_Group, matches_Plus, !map_map.
  pose proof (iter_plus_cls_hd [Re.Range "a" "z"; Re.Range "A" "Z"; Re.Range "0" "9"]
                (S (String.length r3)) r3 (Nat.lt_succ_diag_r _)) as H.
  rewrite (span_ext _ _ _ cset_alnum) in H.
  destruct (Re.iter_plus _ _ r3) as [|[[m rest] g] l]; cbn [hd_error] in H.
  - destruct (Str.span is_alnum r3) as [[|a0 a] b]; [reflexivity | discriminate].
  - destruct (Str.span is_alnum r3) as [[|a0 a] b]; [discriminate|].
    inversion H; subst. reflexivity.
Qed.

Lemma extract_find_from (s : string) (pos : nat) :
  match Re.search_from spotify_regex pos s with
  | Some m => (Re.group m 1, Re.group m 2)
  | None => (None, None)
  end =
  match find_match s with
  | Some x => (Some (fst x), Some (snd x))
  | None => (None, None)
  end.
Proof.
  revert pos; induction s as [|c s IH]; intros pos; cbn [Re.search_from find_match].
  - pose proof (spotify_regex_hd EmptyString) as H0.
    destruct (Re.matches spotify_regex "") as [|[[m rest] g] l];
      destruct (match_here ""); cbn in H0; try discriminate; [reflexivity|].
    now inversion H0.
  - pose proof (spotify_regex_hd (String c s)) as H1.
    destruct (Re.matches spotify_regex (String c s)) as [|[[m rest] g] l];
      destruct (match_here (String c s)); cbn in H1; try discriminate; [apply IH|].
    now inversion H1.
Qed.

Lemma extract_find (s : string) :
  extract_spotify_id s =
  match find_match s with
  | Some x => (Some (fst x), Some (snd x))
  | None => (None, None)
  end.
Proof. apply extract_find_from. Qed.

(** ** The pattern as a function and as a relation *)

Lemma all_app (p : ascii -> bool) (a b : string) :
  Str.all p (a ++ b) = Str.all p a && Str.all p b.
Proof.
  induction a as [|c a IH]; cbn; [reflexivity|].
  now rewrite IH, andb_assoc.
Qed.

Lemma span_spec (p : ascii -> bool) (s a b : string) :
  Str.span p s = (a, b) -> s = a ++ b /\ Str.all p a = true /\ Str.stops p b.
Proof.
  revert a b; induction s as [|c s IH]; intros a b H; cbn in H.
  - inversion H; subst. now cbn.
  - destruct (p c) eqn:E.
    + destruct (Str.span p s) as [a' b'] eqn:E'. inversion H; subst.
      destruct (IH _ _ eq_refl) as (-> & Ha & Hb). cbn. now rewrite E, Ha.
    + inversion H; subst. now cbn.
Qed.

Lemma span_app (p : ascii -> bool) (a b : string) :
  Str.all p a = true -> Str.stops p b -> Str.span p (a ++ b) = (a, b).
Proof.
  intros Ha Hb; induction a as [|c a IH]; cbn in *.
  - destruct b as [|d b]; cbn in *; [reflexivity | now rewrite Hb].
  - apply andb_true_iff in Ha as [Hc Ha]. now rewrite Hc, (IH Ha).
Qed.

Lemma type_prefix_Some (tys : list string) (r ty r2 : string) :
  type_prefix tys r = Some (ty, r2) -> In ty tys /\ r = ty ++ r2.
Proof.
  induction tys as [|t tys IH]; cbn; [discriminate|].
  destruct (Str.strip_prefix t r) as [x|] eqn:E.
  - intros H; inversion H; subst. split; [now left | now apply strip_prefix_Some].
  - intros H. destruct (IH H). split; [now right | assumption].
Qed.

Lemma type_prefix_item (ty x : string) :
  In ty item_types -> type_prefix item_types (ty ++ "/" ++ x) = Some (ty, "/" ++ x).
Proof.
  intros [<- | [<- | [<- | []]]]; reflexivity.
Qed.

Lemma match_here_sound (t ty ident : string) :
  match_here t = Some (ty, ident) ->
  exists post, catalog_match t "" ty ident post /\ Str.stops is_alnum post.
Proof.
  unfold match_here, catalog_match.
  destruct (Str.strip_prefix "open.spotify.com/" t) as [r1|] eqn:E1; [|discriminate].
  destruct (type_prefix item_types r1) as [[ty' r2]|] eqn:E2; [|discriminate].
  destruct (Str.strip_prefix "/" r2) as [r3|] eqn:E3; [|discriminate].
  destruct (Str.span is_alnum r3) as [a b] eqn:E4.
  destruct a as [|a0 a]; [discriminate|]. intros H; inversion H; subst.
  apply strip_prefix_Some in E1, E3. apply type_prefix_Some in E2 as [Hin E2].
  apply span_spec in E4 as (E4 & Hall & Hstop). subst.
  exists b. repeat split; try assumption. discriminate.
Qed.

Lemma match_here_complete (ty ident post : string) :
  In ty item_types -> ident <> EmptyString -> Str.all is_alnum ident = true ->
  Str.stops is_alnum post ->
  match_here ("open.spotify.com/" ++ ty ++ "/" ++ ident ++ post) = Some (ty, ident).
Proof.
  intros Hin Hne Hall Hstop. unfold match_here.
  rewrite strip_prefix_app, (type_prefix_item _ _ Hin), strip_prefix_app,
    (span_app _ _ _ Hall Hstop).
  destruct ident; [contradiction | reflexivity].
Qed.

Lemma match_here_occurrence (ty ident post : string) :
  In ty item_types -> ident <> EmptyString -> Str.all is_alnum ident = true ->
  match_here ("open.spotify.com/" ++ ty ++ "/" ++ ident ++ post) <> None.
Proof.
  intros Hin Hne Hall.
  destruct (Str.span is_alnum post) as [a b] eqn:E.
  apply span_spec in E as (-> & Ha & Hb).
  rewrite <- (append_assoc ident a b).
  rewrite (match_here_complete ty (ident ++ a) b); try assumption; [discriminate | |].
  - destruct ident; [contradiction | discriminate].
  - now rewrite all_app, Hall, Ha.
Qed.

Lemma find_match_Some (s : string) (x : string * string) :
  find_match s = Some x ->
  exists pre t,
    s = pre ++ t /\ match_here t = Some x
    /\ forall pre' t', s = pre' ++ t' -> String.length pre' < String.length pre ->
                       match_here t' = None.
Proof.
  induction s as [|c s IH]; cbn [find_match].
  - destruct (match_here "") eqn:E; [|discriminate].
    intros H; inversion H; subst. exists "", "". repeat split; [assumption|].
    cbn; intros; lia.
  - destruct (match_here (String c s)) eqn:E.
    + intros H; inversion H; subst. exists "", (String c s).
      repeat split; [assumption|]. cbn; intros; lia.
    + intros H. destruct (IH H) as (pre & t & -> & Hm & Hleft).
      exists (String c pre), t. repeat split; [assumption|].
      intros [|d pre'] t' Ht' Hlen; cbn in *.
      * now subst t'.
      * injection Ht' as -> Ht'. apply (Hleft pre' t' Ht'). lia.
Qed.

Lemma find_match_None (s : string) :
  find_match s = None -> forall pre t, s = pre ++ t -> match_here t = None.
Proof.
  induction s as [|c s IH]; cbn [find_match].
  - destruct (match_here "") eqn:E; [discriminate|].
    intros _ [|d pre] t H; cbn in H; [now subst | discriminate].
  - destruct (match_here (String c s)) eqn:E; [discriminate|].
    intros H [|d pre] t Ht; cbn in Ht; [now subst|].
    injection Ht as -> Ht. now apply (IH H pre).
Qed.

Lemma catalog_match_here (s pre ty ident post : string) :
  catalog_match s pre ty ident post ->
  exists t, s = pre ++ t /\ match_here t <> None
            /\ (Str.stops is_alnum post -> match_here t = Some (ty, ident)).
Proof.
  intros (-> & Hin & Hne & Hall).
  exists ("open.spotify.com/" ++ ty ++ "/" ++ ident ++ post).
  split; [reflexivity|]. split.
  - now apply match_here_occurrence.
  - intros Hs. now apply match_here_complete.
Qed.

Lemma find_match_captures (s ty ident : string) :
  find_match s = Some (ty, ident) <-> captures s ty ident.
Proof.
  split.
  - intros H. destruct (find_match_Some _ _ H) as (pre & t & -> & Hm & Hleft).
    destruct (match_here_sound _ _ _ Hm) as (post & (-> & Hin & Hne & Hall) & Hstop).
    exists pre, post. split; [now repeat split|]. split; [assumption|].
    intros pre' ty' ident' post' Hc.
    destruct (catalog_match_here _ _ _ _ _ Hc) as (t' & Ht' & Hsome & _).
    destruct (Nat.le_gt_cases (String.length pre) (String.length pre')) as [L|L];
      [assumption|].
    now rewrite (Hleft pre' t' Ht' L) in Hsome.
  - intros (pre & post & Hc & Hstop & Hleft).
    destruct (catalog_match_here _ _ _ _ _ Hc) as (t & Ht & Hsome & Hexact).
    specialize (Hexact Hstop).
    destruct (find_match s) as [x|] eqn:E.
    + destruct (find_match_Some _ _ E) as (pre0 & t0 & Hs0 & Hm0 & Hleft0).
      destruct x as [ty0 id0].
      destruct (match_here_sound _ _ _ Hm0) as (post0 & (Ht0 & Hin0 & Hne0 & Hall0) & _).
      assert (Hc0 : catalog_match s pre0 ty0 id0 post0).
      { repeat split; try assumption. now rewrite Hs0, Ht0. }
      pose proof (Hleft _ _ _ _ Hc0) as L1.
      destruct (Nat.le_gt_cases (String.length pre0) (String.length pre)) as [L2|L2].
      * assert (Hl : String.length pre = String.length pre0) by lia.
        rewrite Ht in Hs0. destruct (append_inv_length _ _ _ _ Hs0 Hl) as [_ <-].
        rewrite Hexact in Hm0. now inversion Hm0.
      * now rewrite (Hleft0 pre t Ht L2) in Hsome.
    + now rewrite (find_match_None _ E pre t Ht) in Hsome.
Qed.

(** C1: [extract_spotify_id] returns the captured (type, identifier) pair
    exactly when the string contains an occurrence of
    open.spotify.com/<type>/<identifier>, the pair being that of the
    leftmost occurrence with the longest identifier; otherwise it returns
    (None, None).  The function is total: it never raises. *)
Theorem extract_spotify_id_spec (s : string) :
  (forall ty ident,
      extract_spotify_id s = (Some ty, Some ident) <-> captures s ty ident)
  /\ (contains_catalog_match s <->
      exists ty ident, extract_spotify_id s = (Some ty, Some ident))
  /\ (~ contains_catalog_match s <-> extract_spotify_id s = (None, None)).
Proof.
  assert (Hc : contains_catalog_match s -> find_match s <> None).
  { intros (pre & ty & ident & post & Hm) E.
    destruct (catalog_match_here _ _ _ _ _ Hm) as (t & Ht & Hsome & _).
    now rewrite (find_match_None _ E pre t Ht) in Hsome. }
  assert (Hs : forall x, find_match s = Some x -> contains_catalog_match s).
  { intros [ty ident] E. apply find_match_captures in E as (pre & post & Hm & _).
    now exists pre, ty, ident, post. }
  rewrite extract_find. split; [|split].
  - intros ty ident. rewrite <- find_match_captures.
    destruct (find_match s) as [[ty0 id0]|]; cbn; split; intros H;
      inversion H; subst; reflexivity.
  - split.
    + intros H. apply Hc in H. destruct (find_match s) as [[ty0 id0]|];
        [now exists ty0, id0 | contradiction].
    + intros (ty & ident & H). destruct (find_match s) as [x|] eqn:E;
        [now apply (Hs x) | discriminate].
  - split.
    + intros H. destruct (find_match s) as [x|] eqn:E; [|reflexivity].
      destruct H. now apply (Hs x).
    + intros H Hm. apply Hc in Hm. destruct (find_match s); [discriminate | contradiction].
Qed.

(** ** build_query *)


(** ** get_items_from_spotify *)

Section Fetch.

Context {FS : Type} (E : Services FS).

Lemma bind_Ok_inv {A B : Type} (m : M FS A) (k : A -> M FS B)
      (w w' : World FS) (b : B) :
  bind m k w = (w', Ok b) ->
  exists w1 a, m w = (w1, Ok a) /\ k a w1 = (w', Ok b).
Proof.
  unfold bind. destruct (m w) as [w1 [a|e]]; [|discriminate].
  intros H. now exists w1, a.
Qed.

Lemma trace_emit (e : event) (w : World FS) : trace (emit e w) = (trace w ++ [e])%list.
Proof. reflexivity. Qed.

Lemma fs_emit (e : event) (w : World FS) : fs (emit e w) = fs w.
Proof. reflexivity. Qed.

Lemma call_inv {A : Type} (ask : World FS -> result A) (ev : result A -> event)
      (w w' : World FS) (r : result A) :
  call ask ev w = (w', r) -> r = ask w /\ w' = emit (ev r) w.
Proof. unfold call. intros H; inversion H; subst. now split. Qed.

Lemma album_loop_ok (l : list TrackInfo) :
  forall (items : list Track) (w w' : World FS) (items' : list Track),
    album_loop E l items w = (w', Ok items') ->
    exists new,
      items' = (items ++ new)%list
      /\ List.length new = List.length (lookup_ids l)
      /\ trace w' = (trace w ++ lookups (lookup_ids l) new)%list
      /\ fs w' = fs w.
Proof.
  induction l as [|ti l IH]; intros items w w' items' H; cbn [album_loop] in H.
  - inversion H; subst. exists []. cbn. now rewrite !app_nil_r.
  - unfold lookup_ids; cbn [flat_map]; fold (lookup_ids l).
    destruct (info_id ti) as [tid|]; [destruct (Str.truthy tid)|].
    + apply bind_Ok_inv in H as (w1 & t & Hc & H).
      apply call_inv in Hc as [_ ->].
      destruct (IH _ _ _ _ H) as (new & -> & Hlen & Htr & Hfs).
      exists (t :: new). rewrite trace_emit, fs_emit in *.
      rewrite <- app_assoc in *. cbn [app List.length lookups combine map fst snd] in *.
      repeat split; [now rewrite Hlen | exact Htr | assumption].
    + now apply IH.
    + now apply IH.
Qed.

Lemma sp_track_calls_lookups (ids : list string) (records : list Track) :
  List.length records = List.length ids ->
  sp_track_calls (lookups ids records) = ids.
Proof.
  unfold lookups, sp_track_calls.
  revert records; induction ids as [|i ids IH]; intros [|t records] Hlen;
    cbn in *; try discriminate; [reflexivity|].
  f_equal. apply IH. now injection Hlen.
Qed.

End Fetch.

(** C4 (as the code has it): an album fetch that completes issues exactly
    one [sp.track] lookup for each entry of the album track listing that
    carries a non-empty id, in listing order, and the item list holds the
    records these lookups returned, in the same order; entries without an
    id are skipped. *)
Theorem album_fetch_one_lookup_per_id
    (FS : Type) (E : Services FS) (id : string) (w w' : World FS)
    (items : list Track) (name : string) :
  get_items_from_spotify E "album" id w = (w', Ok (items, name)) ->
  exists album listing,
    trace w' =
      (trace w ++ SpAlbum id (Ok album) :: SpAlbumTracks id (Ok listing)
         :: lookups (lookup_ids listing) items
         ++ [Log INFO ("Found " ++ str_nat (List.length items)
                       ++ " track(s) in album '" ++ name ++ "'")])%list
    /\ List.length items = List.length (lookup_ids listing)
    /\ sp_track_calls (lookups (lookup_ids listing) items) = lookup_ids listing
    /\ name = get_or "Unknown Album" (album_name album).
Proof.
  unfold get_items_from_spotify, try_except. intros H.
  destruct (bind (fetch_items E "album" id) _ w) as [w1 [x|e]] eqn:Hb;
    [|cbv [bind logger_error raise] in H; discriminate].
  inversion H; subst; clear H.
  apply bind_Ok_inv in Hb as (w2 & x & Hf & Hlog).
  cbv [bind logger_info ret] in Hlog. inversion Hlog; subst; clear Hlog.
  unfold fetch_items in Hf.
  change ("album" =? "track") with false in Hf.
  change ("album" =? "album") with true in Hf. cbv beta iota in Hf.
  apply bind_Ok_inv in Hf as (w3 & album & Ha & Hf). apply call_inv in Ha as [Ha ->].
  apply bind_Ok_inv in Hf as (w4 & listing & Hl & Hf). apply call_inv in Hl as [Hl ->].
  apply bind_Ok_inv in Hf as (w5 & its & Hloop & Hf).
  unfold ret in Hf. inversion Hf; subst; clear Hf.
  apply album_loop_ok in Hloop as (new & -> & Hlen & Htr & Hfs).
  exists album, listing. cbn [fst snd app] in *.
  rewrite trace_emit, Htr, !trace_emit, <- !app_assoc. cbn [app].
  repeat split; try assumption. now apply sp_track_calls_lookups.
Qed.

Lemma album_fetch_one_lookup_per_id_witness :
  exists w' items name,
    get_items_from_spotify Demo.album_env "album" "abc" Demo.fresh = (w', Ok (items, name))
    /\ exists album listing,
        trace w' =
          (trace Demo.fresh ++ SpAlbum "abc" (Ok album) :: SpAlbumTracks "abc" (Ok listing)
             :: lookups (lookup_ids listing) items
             ++ [Log INFO ("Found " ++ str_nat (List.length items)
                           ++ " track(s) in album '" ++ name ++ "'")])%list
        /\ List.length items = List.length (lookup_ids listing)
        /\ sp_track_calls (lookups (lookup_ids listing) items) = lookup_ids listing
        /\ name = get_or "Unknown Album" (album_name album).
Proof.
  eexists _, _, _. split; [vm_compute; reflexivity|].
  apply (album_fetch_one_lookup_per_id _ Demo.album_env "abc" Demo.fresh).
  vm_compute; reflexivity.
Defined.

(** C4 as stated fails: an album listing of two entries, the first without
    an id, leads to one [sp.track] lookup and one item. *)
Lemma album_fetch_skips_entry_without_id :
  exists w' items name,
    get_items_from_spotify Demo.album_env "album" "abc" Demo.fresh = (w', Ok (items, name))
    /\ In (SpAlbumTracks "abc" (Ok Demo.listing_with_gap)) (trace w')
    /\ List.length Demo.listing_with_gap = 2
    /\ sp_track_calls (trace w') = ["t1"]
    /\ List.length items = 1.
Proof.
  eexists _, _, _. split; [vm_compute; reflexivity|].
  repeat split; try reflexivity. cbn. right. left. reflexivity.
Qed.

(** ** download_song *)

Section DownloadSong.

Context {FS : Type} (E : Services FS).
Variables query downloads_dir base_filename : string.

Let o := output_template downloads_dir base_filename.
Let q := "ytsearch:" ++ query.
Let final := final_path downloads_dir base_filename.

(** [download_song], case by case. *)
Lemma download_song_eq (w : World FS) :
  download_song E query downloads_dir base_filename w =
  let r := ydl_extract_info E w o q in
  let w1 := emit (ExtractInfo o q r) w in
  match r with
  | Raise e => (emit (Log ERROR ("Error downloading song: " ++ exn_msg e)) w1, Ok None)
  | Ok None =>
      (emit (Log ERROR ("Error downloading song: "
                        ++ "argument of type 'NoneType' is not iterable")) w1, Ok None)
  | Ok (Some info) =>
      match entries info with
      | Some (video :: _) =>
          let w2 := emit (Log INFO ("Found video: " ++ str_opt (webpage_url video))) w1 in
          match ydl_download E w2 o (webpage_url video) with
          | (fs', Ok u) =>
              let w3 := mkWorld fs' (trace w2 ++ [Download o (webpage_url video) (Ok u)]) in
              let ex := os_path_exists E fs' final in
              (emit (Exists final ex) w3, Ok (if ex then Some final else None))
          | (fs', Raise e) =>
              (emit (Log ERROR ("Error downloading song: " ++ exn_msg e))
                    (mkWorld fs' (trace w2 ++ [Download o (webpage_url video) (Raise e)])),
               Ok None)
          end
      | _ => (w1, Ok None)
      end
  end.
Proof.
  unfold download_song, try_except, download_song_try, bind at 1, extract_info, call.
  fold o q final. cbv zeta.
  destruct (ydl_extract_info E w o q) as [[info|]|e]; try reflexivity.
  destruct (entries info) as [[|video rest]|]; try reflexivity.
  unfold bind, logger_info, download, path_exists.
  destruct (ydl_download E _ o (webpage_url video)) as [fs' [u|e]]; [|reflexivity].
  cbn [fs]. destruct (os_path_exists E fs' final); reflexivity.
Qed.

(** [download_song] never raises. *)
Lemma download_song_total (w : World FS) :
  exists w' r, download_song E query downloads_dir base_filename w = (w', Ok r).
Proof.
  rewrite download_song_eq. cbv zeta.
  destruct (ydl_extract_info E w o q) as [[info|]|e]; try (eexists _, _; reflexivity).
  destruct (entries info) as [[|video rest]|]; try (eexists _, _; reflexivity).
  destruct (ydl_download E _ o (webpage_url video)) as [fs' [u|e]];
    eexists _, _; reflexivity.
Qed.

Lemma download_song_Some (w : World FS) (p : string) :
  snd (download_song E query downloads_dir base_filename w) = Ok (Some p) <->
  exists fs', step_completes E query downloads_dir base_filename w fs'
              /\ os_path_exists E fs' final = true /\ p = final.
Proof.
  rewrite download_song_eq. unfold step_completes. fold o q. cbv zeta. split.
  - destruct (ydl_extract_info E w o q) as [[info|]|e] eqn:Hs; try discriminate.
    destruct (entries info) as [[|video rest]|] eqn:He; try discriminate.
    destruct (ydl_download E _ o (webpage_url video)) as [fs' [u|e]] eqn:Hd;
      try discriminate.
    cbn [snd]. destruct (os_path_exists E fs' final) eqn:Hx; [|discriminate].
    intros H; inversion H; subst. exists fs'. split; [|now split].
    exists info, video, rest, u. now rewrite He, Hd.
  - intros (fs' & (info & video & rest & u & Hs & He & Hd) & Hx & ->).
    rewrite Hs, He, Hd. cbn [snd]. now rewrite Hx.
Qed.

Lemma download_song_no_file (w : World FS) (fs' : FS) :
  step_completes E query downloads_dir base_filename w fs' ->
  os_path_exists E fs' final = false ->
  snd (download_song E query downloads_dir base_filename w) = Ok None.
Proof.
  intros (info & video & rest & u & Hs & He & Hd) Hx.
  rewrite download_song_eq. fold o q in Hs, Hd. cbv zeta.
  rewrite Hs, He, Hd. cbn [snd]. now rewrite Hx.
Qed.

End DownloadSong.

Lemma path_join_plain (a b : string) :
  Str.truthy a = true -> Str.ends_with "/" a = false -> Str.starts_with "/" b = false ->
  Os.path_join a b = a ++ "/" ++ b.
Proof. unfold Os.path_join. now intros -> -> ->. Qed.

Lemma starts_with_app (c : ascii) (a b : string) :
  Str.starts_with c a = false -> Str.starts_with c b = false ->
  Str.starts_with c (a ++ b) = false.
Proof. destruct a; cbn; auto. Qed.

(** C8 (as the code has it): [download_song] reports success exactly
    when the search returns an entry, the download-and-transcode step
    returns without raising, and a file then exists at the expected path
    [os.path.join(dir, base + ".mp3")]; the value returned is that path.
    When nothing exists at that path after the step the call reports
    absence, whatever else the step wrote; when the search returns no
    entry, or the search or the step raises, it reports absence even if a
    file exists at the expected path. *)
Theorem download_song_success_iff_file
    (FS : Type) (E : Services FS) (query dir base : string) (w : World FS) :
  (exists w' r, download_song E query dir base w = (w', Ok r))
  /\ (forall p,
        snd (download_song E query dir base w) = Ok (Some p) <->
        exists fs', step_completes E query dir base w fs'
                    /\ os_path_exists E fs' (final_path dir base) = true
                    /\ p = final_path dir base)
  /\ (forall fs',
        step_completes E query dir base w fs' ->
        os_path_exists E fs' (final_path dir base) = false ->
        snd (download_song E query dir base w) = Ok None)
  /\ (Str.truthy dir = true -> Str.ends_with "/" dir = false ->
      Str.starts_with "/" base = false ->
      final_path dir base = dir ++ "/" ++ base ++ ".mp3")
  /\ (no_results E query dir base w ->
      snd (download_song E query dir base w) = Ok None)
  /\ (forall e,
        step_raises E query dir base w e ->
        snd (download_song E query dir base w) = Ok None).
Proof.
  split; [apply download_song_total|].
  split; [intros p; apply download_song_Some|].
  split; [apply download_song_no_file|].
  split.
  { intros Hd He Hb. unfold final_path. apply path_join_plain; try assumption.
    now apply starts_with_app. }
  split.
  - intros (info & Hs & He). rewrite download_song_eq. cbv zeta. rewrite Hs.
    destruct He as [-> | ->]; reflexivity.
  - intros e [Hs | (info & video & rest & fs' & Hs & He & Hd)];
      rewrite download_song_eq; cbv zeta; rewrite Hs; [reflexivity|].
    now rewrite He, Hd.
Qed.

Lemma download_song_success_iff_file_witness :
  snd (download_song Demo.ok_env "A - S official audio" "/home/user/downloads" "A - S"
                     Demo.fresh)
  = Ok (Some "/home/user/downloads/A - S.mp3").
Proof.
  apply (proj1 (proj2 (download_song_success_iff_file _ Demo.ok_env
           "A - S official audio" "/home/user/downloads" "A - S" Demo.fresh))).
  eexists. split; [|split; [|reflexivity]].
  - eexists _, _, _, _. repeat split; vm_compute; reflexivity.
  - vm_compute. reflexivity.
Defined.

(** C8 as stated fails: a file exists at the expected path after the
    call, and the call reports absence.  In the first run the file is
    left from an earlier run and the search returns no entry; in the
    second the download-and-transcode step writes the file and then
    raises. *)
Lemma download_song_absence_with_file_present :
  (exists w',
      download_song Demo.silent_env "A - S official audio" "/home/user/downloads" "A - S"
                    Demo.stale = (w', Ok None)
      /\ os_path_exists Demo.silent_env (fs w')
                        (final_path "/home/user/downloads" "A - S") = true)
  /\ (exists w',
        download_song Demo.late_failure_env "A - S official audio" "/home/user/downloads"
                      "A - S" Demo.fresh = (w', Ok None)
        /\ In (Download (output_template "/home/user/downloads" "A - S")
                        (Some "https://video.example/watch?v=1")
                        (Raise (mkExn "DownloadError"
                                      "ERROR: Postprocessing: cleanup failed")))
              (trace w')
        /\ os_path_exists Demo.late_failure_env (fs w')
                          (final_path "/home/user/downloads" "A - S") = true).
Proof.
  split; eexists; (split; [vm_compute; reflexivity|]).
  - vm_compute. reflexivity.
  - split; [|vm_compute; reflexivity]. vm_compute. right. right. left. reflexivity.
Qed.

(** C7 (as the code has it): when the search returns no result and when
    the search or the download-and-transcode step raises, [download_song]
    returns [None] and raises nothing; an exception is logged as an error,
    an empty result set adds no log record. *)
Theorem download_song_failure_is_absence
    (FS : Type) (E : Services FS) (query dir base : string) (w : World FS) :
  (exists w' r, download_song E query dir base w = (w', Ok r))
  /\ (no_results E query dir base w ->
      exists w' ev,
        download_song E query dir base w = (w', Ok None)
        /\ trace w' = (trace w ++ [ev])%list /\ is_log ev = false)
  /\ (forall e,
        step_raises E query dir base w e ->
        exists w' evs,
          download_song E query dir base w = (w', Ok None)
          /\ trace w' =
             (trace w ++ evs
                ++ [Log ERROR ("Error downloading song: " ++ exn_msg e)])%list).
Proof.
  split; [apply download_song_total|]. split.
  - intros (info & Hs & He). rewrite download_song_eq. cbv zeta. rewrite Hs.
    exists (emit (ExtractInfo (output_template dir base) ("ytsearch:" ++ query)
                              (Ok (Some info))) w),
      (ExtractInfo (output_template dir base) ("ytsearch:" ++ query) (Ok (Some info))).
    split; [|split; [apply trace_emit | reflexivity]].
    destruct He as [-> | ->]; reflexivity.
  - intros e [Hs | (info & video & rest & fs' & Hs & He & Hd)];
      rewrite download_song_eq; cbv zeta; rewrite Hs.
    + eexists _, [_]. split; [reflexivity|].
      rewrite !trace_emit, <- app_assoc. reflexivity.
    + rewrite He, Hd. eexists _, [_; _; _]. split; [reflexivity|].
      rewrite !trace_emit. cbn [trace]. rewrite ?trace_emit, <- !app_assoc. reflexivity.
Qed.

Lemma download_song_failure_is_absence_witness :
  exists w' evs,
    download_song Demo.failing_env "A - S official audio" "/home/user/downloads" "A - S"
                  Demo.fresh = (w', Ok None)
    /\ trace w' =
       (trace Demo.fresh ++ evs
          ++ [Log ERROR ("Error downloading song: "
                         ++ "ERROR: Postprocessing: audio conversion failed")])%list.
Proof.
  apply (proj2 (proj2 (download_song_failure_is_absence _ Demo.failing_env
           "A - S official audio" "/home/user/downloads" "A - S" Demo.fresh))
           (mkExn "DownloadError" "ERROR: Postprocessing: audio conversion failed")).
  right. eexists _, _, _, _. repeat split; vm_compute; reflexivity.
Defined.

(** C7 as stated fails: when the search returns no result, [download_song]
    returns [None] and logs nothing. *)
Lemma download_song_no_results_not_logged :
  no_results Demo.silent_env "A - S official audio" "/home/user/downloads" "A - S"
             Demo.fresh
  /\ exists w',
      download_song Demo.silent_env "A - S official audio" "/home/user/downloads" "A - S"
                    Demo.fresh = (w', Ok None)
      /\ filter is_log (trace w') = [].
Proof.
  split.
  - eexists. split; [vm_compute; reflexivity | right; reflexivity].
  - eexists. split; vm_compute; reflexivity.
Qed.

(** ** The worker pool *)

Section Pool.

Context {FS A X : Type}.
Variable task_of : X -> M FS A.
Variable I : World FS -> World FS -> Prop.
Variable R : X -> result A -> Prop.
Variable dom : X -> Prop.
Hypothesis I_refl : forall w, I w w.
Hypothesis I_trans : forall w1 w2 w3, I w1 w2 -> I w2 w3 -> I w1 w3.
Hypothesis task_ok :
  forall x w w' r, dom x -> task_of x w = (w', r) -> I w w' /\ R x r.

Local Abbreviation fut_ok := (future_of task_of R dom).

Lemma fut_ok_submit (xs : list X) :
  Forall dom xs -> Forall2 fut_ok xs (map Pending (map task_of xs)).
Proof.
  induction 1; cbn; constructor; [now split | assumption].
Qed.

Lemma run_at_ok (i : nat) :
  forall xs pool w w' pool',
    Forall2 fut_ok xs pool -> run_at i pool w = (w', pool') ->
    I w w' /\ Forall2 fut_ok xs pool'.
Proof.
  induction i as [|i IH]; intros xs pool w w' pool' Hp H;
    destruct Hp as [|x f xs pool Hf Hp]; cbn [run_at] in H.
  - inversion H; subst. split; [apply I_refl | constructor].
  - destruct f as [t|r].
    + cbn in Hf; destruct Hf as [Hd ->]. destruct (task_of x w) as [w1 r] eqn:Ht.
      inversion H; subst. destruct (task_ok _ _ _ _ Hd Ht). split; [assumption|].
      now constructor.
    + inversion H; subst. split; [apply I_refl | now constructor].
  - inversion H; subst. split; [apply I_refl | constructor].
  - destruct (run_at i pool w) as [w1 p1] eqn:Hr. inversion H; subst.
    destruct (IH _ _ _ _ _ Hp Hr). split; [assumption | now constructor].
Qed.

Lemma run_sched_ok (sched : list nat) :
  forall xs pool w w' pool',
    Forall2 fut_ok xs pool -> run_sched sched pool w = (w', pool') ->
    I w w' /\ Forall2 fut_ok xs pool'.
Proof.
  induction sched as [|i sched IH]; intros xs pool w w' pool' Hp H; cbn [run_sched] in H.
  - inversion H; subst. split; [apply I_refl | assumption].
  - destruct (run_at i pool w) as [w1 p1] eqn:Hr.
    destruct (run_at_ok _ _ _ _ _ _ Hp Hr) as [H1 Hp1].
    destruct (IH _ _ _ _ _ Hp1 H) as [H2 Hp2]. split; [|assumption].
    now apply (I_trans _ w1).
Qed.

Lemma join_all_ok :
  forall xs pool w w' rs,
    Forall2 fut_ok xs pool -> join_all pool w = (w', rs) ->
    I w w' /\ Forall2 R xs rs.
Proof.
  intros xs pool w w' rs Hp; revert w w' rs.
  induction Hp as [|x f xs pool Hf Hp IH]; intros w w' rs H; cbn [join_all] in H.
  - inversion H; subst. split; [apply I_refl | constructor].
  - destruct f as [t|r].
    + cbn in Hf; destruct Hf as [Hd ->]. destruct (task_of x w) as [w1 r] eqn:Ht.
      destruct (join_all pool w1) as [w2 rs'] eqn:Hj. inversion H; subst.
      destruct (task_ok _ _ _ _ Hd Ht) as [H1 Hr]. destruct (IH _ _ _ Hj) as [H2 Hrs].
      split; [now apply (I_trans _ w1) | now constructor].
    + destruct (join_all pool w) as [w2 rs'] eqn:Hj. inversion H; subst.
      destruct (IH _ _ _ Hj) as [H2 Hrs]. split; [assumption | now constructor].
Qed.

(** Whatever the schedule, the pool hands back one result per task, the
    i-th being a result of the i-th task. *)
Lemma run_pool_ok (xs : list X) (sched : list nat) (w w' : World FS) (rs : list (result A)) :
  Forall dom xs ->
  run_pool (map task_of xs) sched w = (w', rs) -> I w w' /\ Forall2 R xs rs.
Proof.
  unfold run_pool. intros Hdom.
  destruct (run_sched sched (map Pending (map task_of xs)) w) as [w1 pool] eqn:Hs.
  intros Hj.
  destruct (run_sched_ok _ _ _ _ _ _ (fut_ok_submit xs Hdom) Hs) as [H1 Hp].
  destruct (join_all_ok _ _ _ _ _ Hp Hj) as [H2 Hrs].
  split; [now apply (I_trans _ w1) | assumption].
Qed.

End Pool.

(** ** The collection branch of main *)

Lemma extends_refl {FS : Type} (good : event -> Prop) (w : World FS) : extends good w w.
Proof. exists []. split; [now rewrite app_nil_r | constructor]. Qed.

Lemma extends_trans {FS : Type} (good : event -> Prop) (w1 w2 w3 : World FS) :
  extends good w1 w2 -> extends good w2 w3 -> extends good w1 w3.
Proof.
  intros (e1 & H1 & G1) (e2 & H2 & G2). exists (e1 ++ e2)%list.
  split; [now rewrite H2, H1, app_assoc | now apply Forall_app].
Qed.

Lemma extends_emit {FS : Type} (good : event -> Prop) (e : event) (w : World FS) :
  good e -> extends good w (emit e w).
Proof. intros G. exists [e]. split; [reflexivity | now constructor]. Qed.

Lemma extends_weaken {FS : Type} (good good' : event -> Prop) (w w' : World FS) :
  (forall e, good e -> good' e) -> extends good w w' -> extends good' w w'.
Proof.
  intros Hg (evs & H & G). exists evs. split; [assumption|].
  eapply Forall_impl; [exact Hg | exact G].
Qed.

Lemma truthy_app_r (a b : string) : Str.truthy b = true -> Str.truthy (a ++ b) = true.
Proof. destruct a; [trivial | reflexivity]. Qed.

Lemma truthy_path_join (a b : string) :
  Str.truthy b = true -> Str.truthy (Os.path_join a b) = true.
Proof.
  intros Hb. unfold Os.path_join.
  destruct (Str.starts_with "/" b); [assumption|].
  destruct (negb (Str.truthy a) || Str.ends_with "/" a);
    repeat apply truthy_app_r; assumption.
Qed.

Lemma truthy_final_path (dir base : string) : Str.truthy (final_path dir base) = true.
Proof. apply truthy_path_join, truthy_app_r. reflexivity. Qed.

Section Collection.

Context {FS : Type} (E : Services FS).

(** The events of one call of [download_song], and its result. *)
Lemma download_song_ok (query dir base : string) (w w' : World FS)
      (r : result (option string)) :
  download_song E query dir base w = (w', r) ->
  extends (song_event dir base) w w'
  /\ (r = Ok None \/ r = Ok (Some (final_path dir base))).
Proof.
  rewrite download_song_eq. cbv zeta.
  assert (T : forall (evs : list event) (w0 : World FS),
             trace w0 = (trace w ++ evs)%list -> Forall (song_event dir base) evs ->
             extends (song_event dir base) w w0) by (intros evs w0 G H; now exists evs).
  destruct (ydl_extract_info E w _ _) as [[info|]|e].
  - destruct (entries info) as [[|video rest]|].
    + intros H; inversion H; subst. split; [|now left]. now apply extends_emit.
    + destruct (ydl_download E _ _ (webpage_url video)) as [fs' [u|e]];
        intros H; inversion H; subst; clear H.
      * split.
        -- eapply T;
             [unfold emit; cbn [trace fs]; rewrite <- !app_assoc; reflexivity
             |repeat constructor].
        -- destruct (os_path_exists E fs' _); [now right | now left].
      * split; [|now left].
        eapply T;
          [unfold emit; cbn [trace fs]; rewrite <- !app_assoc; reflexivity
          |repeat constructor].
    + intros H; inversion H; subst. split; [|now left]. now apply extends_emit.
  - intros H; inversion H; subst. split; [|now left].
    eapply T;
      [unfold emit; cbn [trace fs]; rewrite <- !app_assoc; reflexivity
      |repeat constructor].
  - intros H; inversion H; subst. split; [|now left].
    eapply T;
      [unfold emit; cbn [trace fs]; rewrite <- !app_assoc; reflexivity
      |repeat constructor].
Qed.

Variable folder : string.

Local Abbreviation track_result := (track_outcome E folder).

Lemma process_track_ok (items : list Track) (track : Track) (w w' : World FS)
      (r : result (option string)) :
  In track items ->
  process_track E folder track w = (w', r) ->
  extends (writes_into folder items) w w' /\ track_result track r.
Proof.
  intros Hin H. split.
  - unfold process_track, bind, logger_info in H.
    apply download_song_ok in H as [Hx _].
    apply (extends_trans _ _ (emit (Log INFO ("Downloading track: "
                                              ++ base_filename_of track)) w)).
    + apply extends_emit. now left.
    + eapply extends_weaken; [|exact Hx]. intros e He. right. now exists track.
  - split; [|now exists w, w'].
    unfold process_track, bind, logger_info in H.
    now apply download_song_ok in H as [_ Hr].
Qed.

Lemma run_pool_tracks (items : list Track) (sched : list nat) (w w' : World FS)
      (rs : list (result (option string))) :
  run_pool (map (process_track E folder) items) sched w = (w', rs) ->
  extends (writes_into folder items) w w' /\ Forall2 track_result items rs.
Proof.
  apply (run_pool_ok (process_track E folder)
           (extends (writes_into folder items)) track_result
           (fun x => In x items)).
  - apply extends_refl.
  - apply extends_trans.
  - intros x w0 w1 r Hin. now apply process_track_ok.
  - now apply Forall_forall.
Qed.

(** The results as options: no task raises. *)
Lemma track_results_options (items : list Track) (rs : list (result (option string))) :
  Forall2 track_result items rs ->
  exists results,
    rs = map Ok results
    /\ Forall2 (fun track r =>
                  (r = None \/ r = Some (final_path folder (base_filename_of track)))
                  /\ exists wa wb, process_track E folder track wa = (wb, Ok r))
               items results.
Proof.
  induction 1 as [|track r items rs [Hr Hran] _ (results & -> & IH)].
  - exists []. split; [reflexivity | constructor].
  - destruct Hr as [-> | ->].
    + exists (None :: results). split; [reflexivity|]. constructor; [|assumption].
      split; [now left | assumption].
    + exists (Some (final_path folder (base_filename_of track)) :: results).
      split; [reflexivity|]. constructor; [|assumption]. split; [now right | assumption].
Qed.

Lemma collect_successes (items : list Track) (results : list (option string)) :
  Forall2 (fun track r =>
             r = None \/ r = Some (final_path folder (base_filename_of track)))
          items results ->
  forall acc, collect (map Ok results) acc = Ok (acc ++ successes results)%list.
Proof.
  induction 1 as [|track r items results Hr _ IH]; intros acc; cbn [map collect successes flat_map].
  - now rewrite app_nil_r.
  - destruct Hr as [-> | ->]; cbn [truthy_opt str_opt get_or].
    + apply IH.
    + rewrite truthy_final_path, IH. unfold successes. now rewrite <- app_assoc.
Qed.

End Collection.

Lemma successes_count (results : list (option string)) :
  List.length (successes results) + List.length (filter is_none results)
  = List.length results.
Proof.
  unfold successes. induction results as [|[p|] results IH]; cbn in *; lia.
Qed.

Lemma report_eq {FS : Type} (downloaded : list string) (folder : string) (w : World FS) :
  report downloaded folder w
  = (emit (report_event (List.length downloaded) folder) w, Ok tt).
Proof. destruct downloaded; reflexivity. Qed.

Lemma download_many_eq {FS : Type} (E : Services FS) (folder : string)
      (items : list Track) (sched : list nat) (w : World FS) :
  exists w' results,
    run_pool (map (process_track E folder) items) sched w = (w', map Ok results)
    /\ Forall2 (fun track r =>
                  (r = None \/ r = Some (final_path folder (base_filename_of track)))
                  /\ exists wa wb, process_track E folder track wa = (wb, Ok r))
               items results
    /\ extends (writes_into folder items) w w'
    /\ download_many E folder items sched w = (w', Ok (successes results)).
Proof.
  destruct (run_pool (map (process_track E folder) items) sched w) as [w' rs] eqn:Hp.
  destruct (run_pool_tracks E folder _ _ _ _ _ Hp) as [Hx Hrs].
  destruct (track_results_options E folder _ _ Hrs) as (results & -> & Hres).
  exists w', results. repeat split; try assumption.
  unfold download_many. rewrite Hp. f_equal.
  rewrite (collect_successes folder items); [reflexivity|].
  eapply Forall2_impl; [|exact Hres]. now intros a b [H _].
Qed.

(** C9: whatever order the worker pool completes the tasks in, the list of
    collected results is ordered as the tasks were submitted, that is, as
    the tracks are listed: it consists of the paths returned by the tasks
    of the first, second, ... track, the absent ones left out. *)
Theorem download_many_submission_order
    (FS : Type) (E : Services FS) (folder : string) (items : list Track)
    (sched : list nat) (w : World FS) :
  exists w' results,
    run_pool (map (process_track E folder) items) sched w = (w', map Ok results)
    /\ Forall2 (fun track r =>
                  (r = None \/ r = Some (final_path folder (base_filename_of track)))
                  /\ exists wa wb, process_track E folder track wa = (wb, Ok r))
               items results
    /\ download_many E folder items sched w = (w', Ok (successes results)).
Proof.
  destruct (download_many_eq E folder items sched w) as (w' & results & H1 & H2 & _ & H3).
  now exists w', results.
Qed.

(** The second task completes first (its download is the first in the
    trace), and the first track's path still comes first. *)
Example download_many_not_completion_order :
  exists w',
    download_many Demo.ok_env "/music" Demo.two_tracks Demo.second_first Demo.fresh
    = (w', Ok ["/music/A - S1.mp3"; "/music/B - S2.mp3"])
    /\ flat_map (fun e => match e with Download o _ _ => [o] | _ => [] end) (trace w')
       = ["/music/B - S2.%(ext)s"; "/music/A - S1.%(ext)s"].
Proof. eexists. split; vm_compute; reflexivity. Qed.

(** C6: for a collection of N tracks of which M downloads return a path
    and N - M return absence, the collection branch of [main] ends
    normally, and its last log record reports M successes (and, for M = 0,
    that no track was downloaded). *)
Theorem download_collection_reports_successes
    (FS : Type) (E : Services FS) (folder : string) (items : list Track)
    (sched : list nat) (w : World FS) :
  exists w1 results,
    run_pool (map (process_track E folder) items) sched
             (emit (Log INFO ("Downloading " ++ str_nat (List.length items)
                              ++ " tracks into folder '" ++ folder ++ "'")) w)
    = (w1, map Ok results)
    /\ List.length results = List.length items
    /\ List.length (successes results) + List.length (filter is_none results)
       = List.length items
    /\ download_collection E folder items sched w
       = (emit (report_event (List.length (successes results)) folder) w1, Ok tt)
    /\ report_event 0 folder
       = Log ERROR "Failed to download any tracks from the collection.".
Proof.
  destruct (download_many_eq E folder items sched
              (emit (Log INFO ("Downloading " ++ str_nat (List.length items)
                               ++ " tracks into folder '" ++ folder ++ "'")) w))
    as (w1 & results & Hp & Hres & _ & Hm).
  exists w1, results. pose proof (Forall2_length Hres) as Hlen.
  repeat split; try assumption; try (symmetry; assumption).
  - rewrite successes_count. now symmetry.
  - unfold download_collection, bind at 1, logger_info. unfold bind.
    rewrite Hm. apply report_eq.
Qed.

(** ** The dispatch of main *)

Lemma extract_spotify_id_truthy (s ut sid : string) :
  extract_spotify_id s = (Some ut, Some sid) ->
  Str.truthy ut = true /\ Str.truthy sid = true.
Proof.
  rewrite extract_find. destruct (find_match s) as [[ty ident]|] eqn:E; [|discriminate].
  cbn. intros H; inversion H; subst.
  apply find_match_captures in E as (pre & post & (_ & Hin & Hne & _) & _).
  split.
  - destruct Hin as [<- | [<- | [<- | []]]]; reflexivity.
  - destruct sid; [contradiction | reflexivity].
Qed.

Lemma is_single_iff (ut : string) (items : list Track) :
  is_single ut items = true <-> ut = "track" \/ List.length items = 1.
Proof.
  unfold is_single. rewrite orb_true_iff, String.eqb_eq, Nat.eqb_eq. reflexivity.
Qed.

Section Dispatch.

Context {FS : Type} (E : Services FS).

Lemma ensure_dir_eq (d : string) (w : World FS) :
  ensure_dir E d w =
  if os_path_exists E (fs w) d then (emit (Exists d true) w, Ok tt)
  else
    match os_makedirs E (fs w) d with
    | Ok fs' => (mkWorld fs' (trace w ++ [Exists d false; Makedirs d (Ok tt)]), Ok tt)
    | Raise e =>
        (mkWorld (fs w) (trace w ++ [Exists d false; Makedirs d (Raise e)]), Raise e)
    end.
Proof.
  unfold ensure_dir, bind, path_exists, makedirs.
  destruct (os_path_exists E (fs w) d); [reflexivity|].
  cbn [fs trace emit]. destruct (os_makedirs E (fs w) d); unfold emit; cbn [fs trace];
    now rewrite <- app_assoc.
Qed.

Lemma main_eq (line : string) (sched : list nat) (w w1 w2 : World FS)
      (ut sid name : string) (items : list Track) :
  extract_spotify_id (Str.strip line) = (Some ut, Some sid) ->
  get_items_from_spotify E ut sid w = (w1, Ok (items, name)) ->
  ensure_dir E (Os.path_join (os_getcwd E w1) "downloads") w1 = (w2, Ok tt) ->
  main E line sched w =
  (if is_single ut items
   then download_single E (Os.path_join (os_getcwd E w1) "downloads") items
   else
     bind (ensure_dir E (collection_folder_of (Os.path_join (os_getcwd E w1) "downloads")
                                              name))
          (fun _ => download_collection E
                      (collection_folder_of (Os.path_join (os_getcwd E w1) "downloads")
                                            name) items sched)) w2.
Proof.
  intros H1 H2 H3. unfold main. rewrite H1.
  destruct (extract_spotify_id_truthy _ _ _ H1) as [Hu Hs].
  cbn [truthy_opt str_opt get_or]. rewrite Hu, Hs. cbn [negb orb].
  unfold bind at 1, try_except, bind at 1. rewrite H2. unfold ret at 1.
  cbv beta iota. unfold bind at 1. rewrite H3. reflexivity.
Qed.

Lemma download_single_ok (dir : string) (track : Track) (rest : list Track)
      (w w' : World FS) (r : result unit) :
  download_single E dir (track :: rest) w = (w', r) ->
  r = Ok tt /\ extends (song_event dir (base_filename_of track)) w w'.
Proof.
  unfold download_single, bind at 1, logger_info at 1, bind.
  destruct (download_song E (build_query track) dir (base_filename_of track)
              (emit (Log INFO ("Search query: " ++ build_query track)) w))
    as [w1 r1] eqn:Hd.
  destruct (download_song_ok E _ _ _ _ _ _ Hd) as [Hx Hr].
  assert (Hx' : extends (song_event dir (base_filename_of track)) w w1).
  { eapply extends_trans; [|exact Hx]. now apply extends_emit. }
  destruct Hr as [-> | ->]; cbn [truthy_opt]; [|rewrite truthy_final_path];
    unfold logger_info, logger_error; intros H; inversion H; subst;
    (split; [reflexivity|]);
    (eapply extends_trans; [exact Hx' | now apply extends_emit]).
Qed.

Lemma download_collection_ok (folder : string) (items : list Track) (sched : list nat)
      (w w' : World FS) (r : result unit) :
  download_collection E folder items sched w = (w', r) ->
  r = Ok tt /\ extends (writes_into folder items) w w'.
Proof.
  unfold download_collection, bind at 1, logger_info, bind.
  destruct (download_many_eq E folder items sched
              (emit (Log INFO ("Downloading " ++ str_nat (List.length items)
                               ++ " tracks into folder '" ++ folder ++ "'")) w))
    as (w1 & results & _ & _ & Hx & ->).
  rewrite report_eq. intros H; inversion H; subst. split; [reflexivity|].
  match type of Hx with
  | extends _ ?m _ => apply (extends_trans _ _ m); [apply extends_emit; now left|]
  end.
  eapply extends_trans; [exact Hx|]. apply extends_emit. left.
  destruct (List.length (successes results)); reflexivity.
Qed.

Lemma fetch_track_single (sid name : string) (items : list Track) (w w1 : World FS) :
  get_items_from_spotify E "track" sid w = (w1, Ok (items, name)) ->
  List.length items = 1.
Proof.
  unfold get_items_from_spotify, try_except. intros H.
  destruct (bind (fetch_items E "track" sid) _ w) as [w' [x|e]] eqn:Hb;
    [|cbv [bind logger_error raise] in H; discriminate].
  inversion H; subst; clear H.
  apply bind_Ok_inv in Hb as (w2 & x & Hf & Hlog).
  cbv [bind logger_info ret] in Hlog. inversion Hlog; subst; clear Hlog.
  unfold fetch_items in Hf. change ("track" =? "track") with true in Hf.
  cbv beta iota in Hf. apply bind_Ok_inv in Hf as (w3 & t & _ & Hf).
  unfold ret in Hf. now inversion Hf.
Qed.

End Dispatch.

Lemma extract_spotify_id_spec_witness :
  captures "https://open.spotify.com/track/abc123?si=1" "track" "abc123".
Proof.
  apply (proj1 (extract_spotify_id_spec _)). vm_compute. reflexivity.
Defined.

(** ** More on sanitize_filename *)

Lemma filter_all (p : ascii -> bool) (s : string) : Str.all p (Str.filter p s) = true.
Proof.
  induction s as [|c s IH]; cbn; [reflexivity|].
  destruct (p c) eqn:E; cbn; [now rewrite E|assumption].
Qed.

Lemma filter_length (p : ascii -> bool) (s : string) :
  String.length (Str.filter p s) <= String.length s.
Proof.
  induction s as [|c s IH]; cbn; [lia|]. destruct (p c); cbn; lia.
Qed.

Lemma filter_id_iff (p : ascii -> bool) (s : string) :
  Str.filter p s = s <-> Str.all p s = true.
Proof.
  induction s as [|c s IH]; cbn; [tauto|].
  destruct (p c) eqn:E; cbn.
  - rewrite <- IH. split; [now intros [= ->] | now intros ->].
  - split; [|discriminate]. intros H.
    pose proof (filter_length p s) as L. rewrite H in L. cbn in L. lia.
Qed.

Lemma filter_app (p : ascii -> bool) (a b : string) :
  Str.filter p (a ++ b) = Str.filter p a ++ Str.filter p b.
Proof.
  induction a as [|c a IH]; cbn; [reflexivity|].
  destruct (p c); cbn; now rewrite IH.
Qed.

(** X1: the result of [sanitize_filename] contains none of the nine
    characters, is never longer than its input, and is the input itself
    exactly when the input contains none of them. *)
Theorem sanitize_filename_result_legal (s : string) :
  Str.all is_legal (sanitize_filename s) = true
  /\ String.length (sanitize_filename s) <= String.length s
  /\ (sanitize_filename s = s <-> Str.all is_legal s = true).
Proof.
  rewrite sanitize_filename_filter. unfold remove_illegal. fold is_legal.
  split; [apply filter_all|]. split; [apply filter_length | apply filter_id_iff].
Qed.

Lemma sanitize_filename_app (a b : string) :
  sanitize_filename (a ++ b) = sanitize_filename a ++ sanitize_filename b.
Proof. rewrite !sanitize_filename_filter. apply filter_app. Qed.

(** X2: [sanitize_filename] distributes over concatenation, so the base
    file name of a track is the sanitized artist list, " - ", and the
    sanitized title. *)
Theorem base_filename_of_parts (track : Track) :
  (forall a b, sanitize_filename (a ++ b) = sanitize_filename a ++ sanitize_filename b)
  /\ base_filename_of track
     = sanitize_filename (artists_of track) ++ " - "
       ++ sanitize_filename (get_or "" (track_name track)).
Proof.
  split; [exact sanitize_filename_app|].
  unfold base_filename_of. now rewrite !sanitize_filename_app.
Qed.

Lemma filter_starts_with (p : ascii -> bool) (c : ascii) (s : string) :
  p c = false -> Str.starts_with c (Str.filter p s) = false.
Proof.
  intros Hc. induction s as [|d s IH]; cbn; [reflexivity|].
  destruct (p d) eqn:E; [|assumption]. cbn.
  destruct (Ascii.eqb c d) eqn:Ecd; [|reflexivity].
  apply Ascii.eqb_eq in Ecd; subst. congruence.
Qed.

Lemma sanitize_filename_relative (s : string) :
  Str.starts_with "/" (sanitize_filename s) = false.
Proof. rewrite sanitize_filename_filter. now apply filter_starts_with. Qed.

Lemma path_join_relative (a b : string) :
  Str.starts_with "/" b = false -> Os.path_join a b = a ++ dir_sep a ++ b.
Proof.
  intros Hb. unfold Os.path_join, dir_sep. rewrite Hb.
  destruct (negb (Str.truthy a) || Str.ends_with "/" a); reflexivity.
Qed.

(** X3: a sanitized name never begins with a slash, so [os.path.join]
    never drops the directory: the collection folder, the output template
    and the expected path of a track are the directory, the separator
    (none after an empty directory or a trailing slash), and the name. *)
Theorem sanitized_paths_stay_under_dir (dir name : string) (track : Track) :
  Str.starts_with "/" (sanitize_filename name) = false
  /\ collection_folder_of dir name = dir ++ dir_sep dir ++ sanitize_filename name
  /\ final_path dir (base_filename_of track)
     = dir ++ dir_sep dir ++ base_filename_of track ++ ".mp3"
  /\ output_template dir (base_filename_of track)
     = dir ++ dir_sep dir ++ base_filename_of track ++ ".%(ext)s".
Proof.
  split; [apply sanitize_filename_relative|].
  split; [apply path_join_relative, sanitize_filename_relative|].
  unfold final_path, output_template, base_filename_of.
  split; apply path_join_relative, starts_with_app;
    solve [apply sanitize_filename_relative | reflexivity].
Qed.

(** ** The dispatch of main: the collection folder *)

Lemma ends_with_app (c : ascii) (a b : string) :
  Str.truthy b = true -> Str.ends_with c (a ++ b) = Str.ends_with c b.
Proof.
  intros Hb. induction a as [|d a IH]; [reflexivity|].
  cbn [append Str.ends_with]. destruct (a ++ b) eqn:E; [|exact IH].
  destruct a; cbn in E; [subst b|]; discriminate.
Qed.

(** The base downloads directory is never empty and never ends with a
    slash, so a name joined to it comes after one slash. *)
Lemma dir_sep_downloads (cwd : string) : dir_sep (Os.path_join cwd "downloads") = "/".
Proof.
  rewrite path_join_relative by reflexivity.
  assert (Ht : Str.truthy (cwd ++ dir_sep cwd ++ "downloads") = true)
    by (apply truthy_app_r, truthy_app_r; reflexivity).
  assert (He : Str.ends_with "/" (cwd ++ dir_sep cwd ++ "downloads") = false).
  { rewrite ends_with_app by (apply truthy_app_r; reflexivity).
    now rewrite ends_with_app by reflexivity. }
  unfold dir_sep at 1. now rewrite Ht, He.
Qed.

Lemma collection_folder_eq (cwd name : string) :
  collection_folder_of (Os.path_join cwd "downloads") name
  = Os.path_join cwd "downloads" ++ "/" ++ sanitize_filename name.
Proof.
  unfold collection_folder_of.
  now rewrite path_join_relative, dir_sep_downloads by apply sanitize_filename_relative.
Qed.

Lemma split_sep_app_slash (a b cur : string) :
  Posix.split_sep (a ++ String "/" b) cur
  = (Posix.split_sep a cur ++ Posix.split_sep b "")%list.
Proof.
  revert cur; induction a as [|c a IH]; intros cur; [reflexivity|].
  cbn [append Posix.split_sep]. destruct (Ascii.eqb c "/"); [|apply IH].
  cbn [app]. now rewrite IH.
Qed.

Lemma split_sep_plain (n cur : string) :
  Str.all (fun c => negb (Ascii.eqb c "/")) n = true ->
  Posix.split_sep n cur = [cur ++ n].
Proof.
  revert cur; induction n as [|c n IH]; intros cur H; cbn in *.
  - now rewrite append_nil_r.
  - apply andb_true_iff in H as [Hc Hn]. apply negb_true_iff in Hc. rewrite Hc.
    rewrite (IH _ Hn), append_assoc. reflexivity.
Qed.

Lemma resolve_snoc (n : string) (l : list string) :
  proper_name n ->
  forall up, Posix.resolve (l ++ [n]) up = (Posix.resolve l up ++ [n])%list.
Proof.
  intros (H1 & H2 & H3). apply String.eqb_neq in H1, H2, H3.
  induction l as [|c l IH]; intros up; cbn [app Posix.resolve].
  - now rewrite H1, H2, H3.
  - destruct ((c =? "") || (c =? ".")); [apply IH|].
    destruct (c =? ".."); apply IH.
Qed.

(** On POSIX a proper name without a slash, joined to a directory with a
    slash, resolves to the entry of that name in the directory. *)
Lemma norm_child (d n : string) :
  proper_name n ->
  Str.all (fun c => negb (Ascii.eqb c "/")) n = true ->
  Posix.norm (d ++ "/" ++ n) = (Posix.norm d ++ [n])%list.
Proof.
  intros Hp Hn. unfold Posix.norm.
  change (d ++ "/" ++ n) with (d ++ String "/" n).
  rewrite split_sep_app_slash, (split_sep_plain _ _ Hn). cbn [append].
  now apply resolve_snoc.
Qed.

Lemma all_impl (p q : ascii -> bool) (s : string) :
  (forall c, p c = true -> q c = true) -> Str.all p s = true -> Str.all q s = true.
Proof.
  intros Hpq. induction s as [|c s IH]; cbn; [trivial|].
  intros H. apply andb_true_iff in H as [Hc Hs]. now rewrite (Hpq _ Hc), IH.
Qed.

Lemma sanitize_filename_no_slash (s : string) :
  Str.all (fun c => negb (Ascii.eqb c "/")) (sanitize_filename s) = true.
Proof.
  rewrite sanitize_filename_filter. unfold remove_illegal.
  eapply all_impl; [|apply filter_all]. intros c Hc. cbv beta in Hc.
  destruct (Ascii.eqb c "/") eqn:E; [|reflexivity].
  apply Ascii.eqb_eq in E; subst c. discriminate.
Qed.




(** A collection name made of illegal characters only sanitizes to the
    empty name: the folder joined from it is the downloads directory
    itself, which exists, so no directory is made for the collection and
    the files are written into the downloads directory. *)
Lemma main_empty_collection_name_no_subdirectory :
  exists w',
    main (Demo.playlist_env "???") "https://open.spotify.com/playlist/abc123"
         Demo.second_first Demo.fresh = (w', Ok tt)
    /\ is_single "playlist" Demo.two_tracks = false
    /\ sanitize_filename "???" = ""
    /\ makedirs_calls (trace w') = ["/home/user/downloads"]
    /\ fs w' = [["home"]; ["home"; "user"]; ["home"; "user"; "downloads"];
               ["home"; "user"; "downloads"; "B - S2.mp3"];
               ["home"; "user"; "downloads"; "A - S1.mp3"]].
Proof. eexists. repeat split; vm_compute; reflexivity. Qed.

(** ** More on extract_spotify_id *)

Lemma find_match_shape (s ty ident : string) :
  find_match s = Some (ty, ident) ->
  In ty item_types /\ ident <> EmptyString /\ Str.all is_alnum ident = true.
Proof.
  intros H. apply find_match_captures in H as (pre & post & (_ & Hin & Hne & Hall) & _).
  now repeat split.
Qed.

(** X4: [extract_spotify_id] returns either (None, None) or a pair of two
    present values, the first one of "track", "album", "playlist", the
    second a non-empty alphanumeric string; never one value without the
    other. *)
Theorem extract_spotify_id_shape (s : string) :
  extract_spotify_id s = (None, None)
  \/ exists ty ident,
      extract_spotify_id s = (Some ty, Some ident)
      /\ In ty item_types /\ ident <> EmptyString /\ Str.all is_alnum ident = true.
Proof.
  rewrite extract_find. destruct (find_match s) as [[ty ident]|] eqn:E; [|now left].
  right. exists ty, ident. split; [reflexivity|]. exact (find_match_shape s ty ident E).
Qed.

Lemma space_not_alnum (c : ascii) : Str.is_space c = true -> is_alnum c = false.
Proof.
  unfold Str.is_space, is_alnum. generalize (nat_of_ascii c); intros n H.
  repeat rewrite ?orb_false_iff, ?andb_false_iff, ?Nat.leb_gt.
  repeat rewrite ?orb_true_iff, ?andb_true_iff, ?Nat.leb_le, ?Nat.eqb_eq in H. lia.
Qed.

Lemma space_not_pattern (c d : ascii) :
  Str.is_space c = true -> Str.is_space d = false -> Ascii.eqb d c = false.
Proof.
  intros Hc Hd. destruct (Ascii.eqb d c) eqn:E; [|reflexivity].
  apply Ascii.eqb_eq in E; subst. congruence.
Qed.

Lemma match_here_space (c : ascii) (s : string) :
  Str.is_space c = true -> match_here (String c s) = None.
Proof.
  intros H. unfold match_here. rewrite strip_prefix_cons.
  now rewrite (space_not_pattern c "o" H eq_refl).
Qed.

Lemma find_match_lstrip (s : string) : find_match (Str.lstrip s) = find_match s.
Proof.
  induction s as [|c s IH]; [reflexivity|]. cbn [Str.lstrip].
  destruct (Str.is_space c) eqn:E; [|reflexivity].
  rewrite IH. cbn [find_match]. now rewrite match_here_space.
Qed.

Lemma rstrip_spec (s : string) :
  exists ws, s = Str.rstrip s ++ ws /\ Str.all Str.is_space ws = true.
Proof.
  induction s as [|c s (ws & Hs & Hw)]; [now exists ""|].
  cbn [Str.rstrip]. destruct (Str.rstrip s) as [|d r] eqn:E.
  - destruct (Str.is_space c) eqn:Ec.
    + exists (String c ws). cbn in *. split; [now rewrite Hs | now rewrite Ec].
    + exists ws. cbn in *. split; [now rewrite Hs | assumption].
  - exists ws. split; [|assumption]. cbn. now rewrite Hs at 1.
Qed.

(** White space after the subject changes nothing for a literal without
    white space. *)
Lemma strip_prefix_app_space (p t ws : string) :
  Str.all (fun c => negb (Str.is_space c)) p = true ->
  Str.all Str.is_space ws = true ->
  Str.strip_prefix p (t ++ ws)
  = option_map (fun r => r ++ ws) (Str.strip_prefix p t).
Proof.
  intros Hp Hw. revert t; induction p as [|c p IH]; intros t; [reflexivity|].
  cbn in Hp. apply andb_true_iff in Hp as [Hc Hp]. apply negb_true_iff in Hc.
  destruct t as [|d t].
  - cbn [append Str.strip_prefix option_map]. destruct ws as [|e ws]; [reflexivity|].
    cbn in Hw. apply andb_true_iff in Hw as [He _].
    now rewrite (space_not_pattern e c He Hc).
  - cbn [append]. rewrite !strip_prefix_cons.
    destruct (Ascii.eqb c d); [|reflexivity]. apply (IH Hp).
Qed.

Lemma type_prefix_app_space (t ws : string) :
  Str.all Str.is_space ws = true ->
  type_prefix item_types (t ++ ws)
  = option_map (fun x => (fst x, snd x ++ ws)) (type_prefix item_types t).
Proof.
  intros Hw. unfold item_types, type_prefix.
  rewrite !(fun p H => strip_prefix_app_space p t ws H Hw) by reflexivity.
  destruct (Str.strip_prefix "track" t); [reflexivity|].
  destruct (Str.strip_prefix "album" t); [reflexivity|].
  destruct (Str.strip_prefix "playlist" t); reflexivity.
Qed.

Lemma span_app_space (r ws : string) :
  Str.all Str.is_space ws = true ->
  Str.span is_alnum (r ++ ws)
  = (fst (Str.span is_alnum r), snd (Str.span is_alnum r) ++ ws).
Proof.
  intros Hw. induction r as [|c r IH].
  - cbn [append Str.span fst snd]. destruct ws as [|e ws]; [reflexivity|].
    cbn in Hw. apply andb_true_iff in Hw as [He _].
    cbn [Str.span]. now rewrite (space_not_alnum e He).
  - cbn [append Str.span]. destruct (is_alnum c); [|reflexivity].
    rewrite IH. now destruct (Str.span is_alnum r).
Qed.

Lemma match_here_app_space (t ws : string) :
  Str.all Str.is_space ws = true -> match_here (t ++ ws) = match_here t.
Proof.
  intros Hw. unfold match_here.
  rewrite (strip_prefix_app_space "open.spotify.com/" t ws eq_refl Hw).
  destruct (Str.strip_prefix "open.spotify.com/" t) as [r1|]; [|reflexivity].
  cbn [option_map]. rewrite (type_prefix_app_space _ _ Hw).
  destruct (type_prefix item_types r1) as [[ty r2]|]; [|reflexivity].
  cbn [option_map fst snd].
  rewrite (strip_prefix_app_space "/" r2 ws eq_refl Hw).
  destruct (Str.strip_prefix "/" r2) as [r3|]; [|reflexivity].
  cbn [option_map]. rewrite (span_app_space _ _ Hw).
  now destruct (Str.span is_alnum r3) as [[|a0 a] b].
Qed.

Lemma find_match_spaces (ws : string) :
  Str.all Str.is_space ws = true -> find_match ws = None.
Proof.
  induction ws as [|c ws IH]; [reflexivity|]. cbn [Str.all find_match].
  intros H. apply andb_true_iff in H as [Hc Hw].
  now rewrite (match_here_space c ws Hc), IH.
Qed.

Lemma find_match_app_space (t ws : string) :
  Str.all Str.is_space ws = true -> find_match (t ++ ws) = find_match t.
Proof.
  intros Hw. induction t as [|c t IH].
  - cbn [append]. now rewrite find_match_spaces.
  - change (String c t ++ ws) with (String c (t ++ ws)). cbn [find_match].
    change (String c (t ++ ws)) with (String c t ++ ws).
    rewrite (match_here_app_space _ _ Hw).
    destruct (match_here (String c t)); [reflexivity | exact IH].
Qed.

Lemma find_match_strip (s : string) : find_match (Str.strip s) = find_match s.
Proof.
  unfold Str.strip. rewrite <- (find_match_lstrip s).
  destruct (rstrip_spec (Str.lstrip s)) as (ws & Hs & Hw).
  rewrite Hs at 2. now rewrite find_match_app_space.
Qed.

Lemma contains_find_match (s : string) :
  contains_catalog_match s <-> find_match s <> None.
Proof.
  split.
  - intros (pre & ty & ident & post & Hm) E.
    destruct (catalog_match_here _ _ _ _ _ Hm) as (t & Ht & Hsome & _).
    now rewrite (find_match_None _ E pre t Ht) in Hsome.
  - destruct (find_match s) as [[ty ident]|] eqn:E; [|contradiction]. intros _.
    apply find_match_captures in E as (pre & post & Hm & _).
    now exists pre, ty, ident, post.
Qed.

Lemma extract_spotify_id_strip_eq (s : string) :
  extract_spotify_id (Str.strip s) = extract_spotify_id s.
Proof. rewrite !extract_find. now rewrite find_match_strip. Qed.

(** X5: white space around the typed line is irrelevant to the parser:
    for every line of code points below 256, [extract_spotify_id] gives
    the same result on the line and on the line stripped of Python's
    white space (codes 9 to 13, 28 to 32, 133 and 160), as [main] passes
    it. *)
Theorem extract_spotify_id_strip (s : string) :
  extract_spotify_id (Str.strip s) = extract_spotify_id s
  /\ (contains_catalog_match (Str.strip s) <-> contains_catalog_match s).
Proof.
  split; [apply extract_spotify_id_strip_eq|].
  now rewrite !contains_find_match, find_match_strip.
Qed.

Lemma find_match_skip (pre t : string) :
  no_letter_o pre = true -> find_match (pre ++ t) = find_match t.
Proof.
  unfold no_letter_o. induction pre as [|c pre IH]; [reflexivity|].
  cbn [Str.all append]. intros H. apply andb_true_iff in H as [Hc Hp].
  cbn [find_match]. unfold match_here at 1. rewrite strip_prefix_cons.
  apply negb_true_iff in Hc. rewrite Ascii.eqb_sym in Hc. rewrite Hc. now apply IH.
Qed.

(** X6: a catalog URL parses to its parts whatever follows the identifier:
    after a prefix without the letter "o" (a scheme such as https://, or
    nothing), open.spotify.com/<type>/<id> followed by a query string, a
    fragment or any text that does not begin with a letter or digit gives
    (type, id). *)
Theorem extract_spotify_id_url (pre ty ident rest : string) :
  no_letter_o pre = true ->
  In ty item_types ->
  ident <> EmptyString ->
  Str.all is_alnum ident = true ->
  Str.stops is_alnum rest ->
  extract_spotify_id (pre ++ "open.spotify.com/" ++ ty ++ "/" ++ ident ++ rest)
  = (Some ty, Some ident).
Proof.
  intros Hpre Hin Hne Hall Hstop. rewrite extract_find, (find_match_skip _ _ Hpre).
  assert (H : match_here ("open.spotify.com/" ++ ty ++ "/" ++ ident ++ rest)
              = Some (ty, ident)) by now apply match_here_complete.
  remember ("open.spotify.com/" ++ ty ++ "/" ++ ident ++ rest) as t.
  destruct t; cbn [find_match]; now rewrite H.
Qed.

Lemma extract_spotify_id_url_witness :
  extract_spotify_id ("https://" ++ "open.spotify.com/" ++ "album" ++ "/" ++ "4aawyAB9"
                      ++ "?si=xyz")
  = (Some "album", Some "4aawyAB9").
Proof.
  apply (extract_spotify_id_url "https://" "album" "4aawyAB9" "?si=xyz");
    [reflexivity | right; left; reflexivity | discriminate | reflexivity | reflexivity].
Defined.

(** ** More on get_items_from_spotify *)

Section Quiet.

Context {FS : Type} (good : event -> Prop).

Lemma quiet_ret {A : Type} (a : A) : quiet good (ret (FS := FS) a).
Proof. intros w w' r H. inversion H; subst. split; [reflexivity | apply extends_refl]. Qed.

Lemma quiet_raise {A : Type} (e : exn) : quiet good (raise (FS := FS) (A := A) e).
Proof. intros w w' r H. inversion H; subst. split; [reflexivity | apply extends_refl]. Qed.

Lemma quiet_bind {A B : Type} (m : M FS A) (k : A -> M FS B) :
  quiet good m -> (forall a, quiet good (k a)) -> quiet good (bind m k).
Proof.
  intros Hm Hk w w' r. unfold bind. destruct (m w) as [w1 [a|e]] eqn:E.
  - intros H. destruct (Hm _ _ _ E) as [F1 X1]. destruct (Hk _ _ _ _ H) as [F2 X2].
    split; [congruence | now apply (extends_trans _ _ w1)].
  - intros H; inversion H; subst. now apply (Hm _ _ _ E).
Qed.

Lemma quiet_try_except {A : Type} (m : M FS A) (h : exn -> M FS A) :
  quiet good m -> (forall e, quiet good (h e)) -> quiet good (try_except m h).
Proof.
  intros Hm Hh w w' r. unfold try_except. destruct (m w) as [w1 [a|e]] eqn:E.
  - intros H; inversion H; subst. now apply (Hm _ _ _ E).
  - intros H. destruct (Hm _ _ _ E) as [F1 X1]. destruct (Hh _ _ _ _ H) as [F2 X2].
    split; [congruence | now apply (extends_trans _ _ w1)].
Qed.

Lemma quiet_call {A : Type} (ask : World FS -> result A) (ev : result A -> event) :
  (forall r, good (ev r)) -> quiet good (call ask ev).
Proof.
  intros Hg w w' r H. apply call_inv in H as [-> ->].
  split; [reflexivity | now apply extends_emit].
Qed.

Lemma quiet_logger_info (msg : string) :
  good (Log INFO msg) -> quiet good (logger_info (FS := FS) msg).
Proof.
  intros Hg w w' r H. inversion H; subst. split; [reflexivity | now apply extends_emit].
Qed.

Lemma quiet_logger_error (msg : string) :
  good (Log ERROR msg) -> quiet good (logger_error (FS := FS) msg).
Proof.
  intros Hg w w' r H. inversion H; subst. split; [reflexivity | now apply extends_emit].
Qed.

End Quiet.

Section FetchMore.

Context {FS : Type} (E : Services FS).

Lemma quiet_album_loop (l : list TrackInfo) :
  forall items, quiet is_catalog_event (album_loop E l items).
Proof.
  induction l as [|ti l IH]; intros items; cbn [album_loop].
  - apply quiet_ret.
  - destruct (info_id ti) as [tid|]; [destruct (Str.truthy tid)|]; try apply IH.
    apply quiet_bind; [now apply quiet_call | intros t; apply IH].
Qed.

Lemma quiet_fetch_items (ut sid : string) : quiet is_catalog_event (fetch_items E ut sid).
Proof.
  unfold fetch_items.
  destruct (ut =? "track"); [|destruct (ut =? "album"); [|destruct (ut =? "playlist")]].
  - apply quiet_bind; [now apply quiet_call | intros; apply quiet_ret].
  - apply quiet_bind; [now apply quiet_call | intros album].
    apply quiet_bind; [now apply quiet_call | intros listing].
    apply quiet_bind; [apply quiet_album_loop | intros; apply quiet_ret].
  - apply quiet_bind; [now apply quiet_call | intros; apply quiet_ret].
  - apply quiet_raise.
Qed.

Lemma quiet_get_items (ut sid : string) :
  quiet is_catalog_event (get_items_from_spotify E ut sid).
Proof.
  unfold get_items_from_spotify. apply quiet_try_except.
  - apply quiet_bind; [apply quiet_fetch_items | intros x].
    apply quiet_bind; [now apply quiet_logger_info | intros; apply quiet_ret].
  - intros e. apply quiet_bind; [now apply quiet_logger_error | intros; apply quiet_raise].
Qed.

(** The outcome of [get_items_from_spotify] from that of the fetch. *)
Lemma get_items_Ok (ut sid : string) (w w' : World FS) (items : list Track) (name : string) :
  get_items_from_spotify E ut sid w = (w', Ok (items, name)) <->
  exists w1,
    fetch_items E ut sid w = (w1, Ok (items, name))
    /\ w' = emit (Log INFO ("Found " ++ str_nat (List.length items) ++ " track(s) in "
                            ++ ut ++ " '" ++ name ++ "'")) w1.
Proof.
  unfold get_items_from_spotify, try_except, bind at 1.
  destruct (fetch_items E ut sid w) as [w1 [[its nm]|e]].
  - cbv [bind logger_info ret fst snd]. split.
    + intros H; inversion H; subst. now exists w1.
    + intros (w2 & H & ->). now inversion H.
  - cbv [bind logger_error raise]. split; [discriminate|].
    intros (w2 & H & _). discriminate.
Qed.

Lemma get_items_Raise (ut sid : string) (w w' : World FS) (e : exn) :
  get_items_from_spotify E ut sid w = (w', Raise e) <->
  exists w1,
    fetch_items E ut sid w = (w1, Raise e)
    /\ w' = emit (Log ERROR ("Error fetching items from Spotify: " ++ exn_msg e)) w1.
Proof.
  unfold get_items_from_spotify, try_except, bind at 1.
  destruct (fetch_items E ut sid w) as [w1 [[its nm]|e']].
  - cbv [bind logger_info ret fst snd]. split; [discriminate|].
    intros (w2 & H & _). discriminate.
  - cbv [bind logger_error raise]. split.
    + intros H; inversion H; subst. now exists w1.
    + intros (w2 & H & ->). now inversion H.
Qed.

Lemma playlist_loop_eq (l : list PlaylistItem) :
  forall items, playlist_loop l items = (items ++ present_tracks l)%list.
Proof.
  induction l as [|item l IH]; intros items; cbn [playlist_loop present_tracks flat_map].
  - now rewrite app_nil_r.
  - fold (present_tracks l). destruct (item_track item) as [[|t]|]; rewrite IH; cbn [app].
    + reflexivity.
    + now rewrite <- app_assoc.
    + reflexivity.
Qed.

Lemma album_loop_raise (l : list TrackInfo) :
  forall (items : list Track) (w w' : World FS) (e : exn),
    album_loop E l items w = (w', Raise e) ->
    exists evs tid, trace w' = (trace w ++ evs ++ [SpTrack tid (Raise e)])%list.
Proof.
  induction l as [|ti l IH]; intros items w w' e H; cbn [album_loop] in H;
    [discriminate|].
  destruct (info_id ti) as [tid|]; [destruct (Str.truthy tid)|]; try (now apply (IH _ _ _ _ H)).
  unfold bind, call_sp_track, call in H.
  destruct (sp_track E w tid) as [t|e'] eqn:Ht.
  - destruct (IH _ _ _ _ H) as (evs & tid' & Htr).
    exists (SpTrack tid (Ok t) :: evs), tid'. rewrite Htr, trace_emit, <- app_assoc.
    reflexivity.
  - inversion H; subst. exists [], tid. now rewrite trace_emit.
Qed.

Lemma fetch_items_raise (ut sid : string) (w w' : World FS) (e : exn) :
  In ut item_types ->
  fetch_items E ut sid w = (w', Raise e) ->
  exists evs ev, trace w' = (trace w ++ evs ++ [ev])%list /\ call_raised ev e.
Proof.
  intros Hin. unfold fetch_items.
  destruct Hin as [<- | [<- | [<- | []]]].
  - change ("track" =? "track") with true. cbv iota.
    unfold bind, call_sp_track, call. destruct (sp_track E w sid) as [t|e'];
      [discriminate|]. intros H; inversion H; subst.
    exists [], (SpTrack sid (Raise e)). now rewrite trace_emit.
  - change ("album" =? "track") with false. change ("album" =? "album") with true.
    cbv iota. unfold bind at 1, call at 1.
    destruct (sp_album E w sid) as [album|e'].
    + unfold bind at 1, call at 1.
      destruct (sp_album_tracks E _ sid) as [listing|e'].
      * unfold bind at 1.
        destruct (album_loop E listing [] _) as [w1 [its|e']] eqn:Hl; [discriminate|].
        intros H; inversion H; subst.
        apply album_loop_raise in Hl as (evs & tid & Htr).
        exists (SpAlbum sid (Ok album) :: SpAlbumTracks sid (Ok listing) :: evs),
          (SpTrack tid (Raise e)).
        split; [|reflexivity]. rewrite Htr, !trace_emit, <- !app_assoc. reflexivity.
      * intros H; inversion H; subst.
        exists [SpAlbum sid (Ok album)], (SpAlbumTracks sid (Raise e)).
        split; [|reflexivity]. rewrite !trace_emit, <- !app_assoc. reflexivity.
    + intros H; inversion H; subst. exists [], (SpAlbum sid (Raise e)).
      now rewrite trace_emit.
  - change ("playlist" =? "track") with false. change ("playlist" =? "album") with false.
    change ("playlist" =? "playlist") with true. cbv iota.
    unfold bind, call. destruct (sp_playlist E w sid) as [pl|e']; [discriminate|].
    intros H; inversion H; subst. exists [], (SpPlaylist sid (Raise e)).
    now rewrite trace_emit.
Qed.

End FetchMore.

(** X7: a track fetch that completes asks the catalog once, for that
    track, and returns the one-element list of the record it got, named
    by the track's title, or "Unknown Track" when the record has no name. *)
Theorem track_fetch_single_item
    (FS : Type) (E : Services FS) (sid : string) (w w' : World FS)
    (items : list Track) (name : string) :
  get_items_from_spotify E "track" sid w = (w', Ok (items, name)) ->
  exists track,
    sp_track E w sid = Ok track
    /\ items = [track]
    /\ name = get_or "Unknown Track" (track_name track)
    /\ trace w' = (trace w ++ [SpTrack sid (Ok track);
                               Log INFO ("Found 1 track(s) in track '" ++ name ++ "'")])%list.
Proof.
  intros H. apply get_items_Ok in H as (w1 & Hf & ->).
  unfold fetch_items in Hf. change ("track" =? "track") with true in Hf. cbv iota in Hf.
  apply bind_Ok_inv in Hf as (w2 & t & Hc & Hr). apply call_inv in Hc as [Hc ->].
  unfold ret in Hr. inversion Hr; subst. exists t. repeat split; [now symmetry|].
  rewrite !trace_emit, <- app_assoc. reflexivity.
Qed.

Lemma track_fetch_single_item_witness :
  exists w' track,
    get_items_from_spotify Demo.album_env "track" "t1" Demo.fresh
    = (w', Ok ([track], "Song"))
    /\ sp_track Demo.album_env Demo.fresh "t1" = Ok track.
Proof.
  eexists _, _. split; [vm_compute; reflexivity|].
  destruct (track_fetch_single_item _ Demo.album_env "t1" Demo.fresh _ _ _ eq_refl)
    as (t & Ht & Hi & _).
  inversion Hi; subst. exact Ht.
Defined.

(** X8: a playlist fetch that completes asks the catalog once, for the
    playlist, and issues no per-track lookup: the items are the truthy
    track objects embedded in the playlist, in order, the absent, null and
    empty ones left out; the name is the playlist's, or "Unknown
    Playlist". *)
Theorem playlist_fetch_no_lookup
    (FS : Type) (E : Services FS) (sid : string) (w w' : World FS)
    (items : list Track) (name : string) :
  get_items_from_spotify E "playlist" sid w = (w', Ok (items, name)) ->
  exists playlist,
    sp_playlist E w sid = Ok playlist
    /\ items = present_tracks (playlist_items playlist)
    /\ name = get_or "Unknown Playlist" (playlist_name playlist)
    /\ trace w' = (trace w ++ [SpPlaylist sid (Ok playlist);
                               Log INFO ("Found " ++ str_nat (List.length items)
                                         ++ " track(s) in playlist '" ++ name ++ "'")])%list.
Proof.
  intros H. apply get_items_Ok in H as (w1 & Hf & ->).
  unfold fetch_items in Hf.
  change ("playlist" =? "track") with false in Hf.
  change ("playlist" =? "album") with false in Hf.
  change ("playlist" =? "playlist") with true in Hf. cbv iota in Hf.
  apply bind_Ok_inv in Hf as (w2 & pl & Hc & Hr). apply call_inv in Hc as [Hc ->].
  unfold ret in Hr. inversion Hr; subst. exists pl.
  rewrite playlist_loop_eq. cbn [app]. repeat split; [now symmetry|].
  rewrite !trace_emit, <- app_assoc. reflexivity.
Qed.

Lemma playlist_fetch_no_lookup_witness :
  exists w' playlist,
    get_items_from_spotify (Demo.playlist_env "Mix") "playlist" "p1" Demo.fresh
    = (w', Ok (present_tracks (playlist_items playlist), "Mix"))
    /\ sp_track_calls (trace w') = [].
Proof.
  destruct (get_items_from_spotify (Demo.playlist_env "Mix") "playlist" "p1" Demo.fresh)
    as [w' r] eqn:H.
  assert (Hr : r = Ok (Demo.two_tracks, "Mix")) by (vm_compute in H; now inversion H).
  subst r.
  destruct (playlist_fetch_no_lookup _ _ _ _ _ _ _ H) as (pl & Hp & Hi & Hn & Htr).
  exists w', pl. split; [now rewrite <- Hi|]. rewrite Htr. reflexivity.
Defined.

(** X9: for a type other than "track", "album" and "playlist",
    [get_items_from_spotify] asks the catalog nothing: it logs the error
    and raises ValueError. *)
Theorem unknown_type_raises
    (FS : Type) (E : Services FS) (ut sid : string) (w : World FS) :
  ~ In ut item_types ->
  get_items_from_spotify E ut sid w
  = (emit (Log ERROR ("Error fetching items from Spotify: "
                      ++ "Unknown Spotify URL type encountered.")) w,
     Raise (mkExn "ValueError" "Unknown Spotify URL type encountered.")).
Proof.
  intros Hn. unfold get_items_from_spotify, try_except, bind at 1, fetch_items.
  assert (H1 : (ut =? "track") = false) by (apply String.eqb_neq; intros ->; apply Hn; cbn; auto).
  assert (H2 : (ut =? "album") = false) by (apply String.eqb_neq; intros ->; apply Hn; cbn; auto).
  assert (H3 : (ut =? "playlist") = false)
    by (apply String.eqb_neq; intros ->; apply Hn; cbn; auto).
  rewrite H1, H2, H3. reflexivity.
Qed.

Lemma unknown_type_raises_witness :
  snd (get_items_from_spotify Demo.album_env "artist" "a1" Demo.fresh)
  = Raise (mkExn "ValueError" "Unknown Spotify URL type encountered.").
Proof.
  rewrite (unknown_type_raises _ Demo.album_env "artist" "a1" Demo.fresh); [reflexivity|].
  intros [H | [H | [H | []]]]; discriminate.
Defined.

(** X10: when [get_items_from_spotify] fails, the exception it raises is
    logged as an error in the last record; for the three known types it is
    the exception of the catalog call made just before, after which no
    further call is made (no retry). *)
Theorem fetch_failure_logged_and_raised
    (FS : Type) (E : Services FS) (ut sid : string) (w w' : World FS) (e : exn) :
  get_items_from_spotify E ut sid w = (w', Raise e) ->
  exists evs,
    trace w' = (trace w ++ evs
                  ++ [Log ERROR ("Error fetching items from Spotify: " ++ exn_msg e)])%list
    /\ (In ut item_types ->
        exists evs0 ev, evs = (evs0 ++ [ev])%list /\ call_raised ev e).
Proof.
  intros H. apply get_items_Raise in H as (w1 & Hf & ->).
  destruct (quiet_fetch_items E ut sid _ _ _ Hf) as [_ (evs & Htr & _)].
  exists evs. split; [now rewrite trace_emit, Htr, <- app_assoc|].
  intros Hin. destruct (fetch_items_raise E _ _ _ _ _ Hin Hf) as (evs0 & ev & Htr' & Hc).
  exists evs0, ev. split; [|assumption].
  rewrite Htr' in Htr. now apply app_inv_head in Htr.
Qed.

Lemma fetch_failure_logged_and_raised_witness :
  exists w' evs,
    get_items_from_spotify Demo.ok_env "album" "a1" Demo.fresh
    = (w', Raise (mkExn "SpotifyException" "http status: 404"))
    /\ trace w' = (trace Demo.fresh ++ evs
                     ++ [Log ERROR ("Error fetching items from Spotify: "
                                    ++ "http status: 404")])%list.
Proof.
  destruct (get_items_from_spotify Demo.ok_env "album" "a1" Demo.fresh) as [w' r] eqn:H.
  assert (Hr : r = Raise (mkExn "SpotifyException" "http status: 404"))
    by (vm_compute in H; now inversion H).
  subst r. destruct (fetch_failure_logged_and_raised _ _ _ _ _ _ _ H) as (evs & Htr & _).
  exists w', evs. split; [reflexivity | exact Htr].
Defined.

(** X11: [get_items_from_spotify] never touches the filesystem, and adds to
    the trace only calls of the catalog service and log records: no
    search, no download, no directory. *)
Theorem fetch_leaves_filesystem
    (FS : Type) (E : Services FS) (ut sid : string) (w : World FS) :
  fs (fst (get_items_from_spotify E ut sid w)) = fs w
  /\ extends is_catalog_event w (fst (get_items_from_spotify E ut sid w)).
Proof.
  destruct (get_items_from_spotify E ut sid w) as [w' r] eqn:H.
  exact (quiet_get_items E ut sid _ _ _ H).
Qed.

(** ** More on download_song *)

(** X12: [download_song] uses the first search result only: it calls the
    download at most once, with the URL of the first entry, whatever other
    entries the search returned; when the search raises, returns nothing or
    returns no entry, no download is called and the filesystem is left as
    it was. *)
Theorem download_song_first_result_only
    (FS : Type) (E : Services FS) (query dir base : string) (w : World FS) :
  exists evs,
    trace (fst (download_song E query dir base w)) = (trace w ++ evs)%list
    /\ ((download_calls evs = [] /\ fs (fst (download_song E query dir base w)) = fs w)
        \/ exists info video rest,
            ydl_extract_info E w (output_template dir base) ("ytsearch:" ++ query)
            = Ok (Some info)
            /\ entries info = Some (video :: rest)
            /\ download_calls evs = [(output_template dir base, webpage_url video)]).
Proof.
  rewrite download_song_eq. cbv zeta.
  destruct (ydl_extract_info E w _ _) as [[info|]|e] eqn:Hs.
  - destruct (entries info) as [[|video rest]|] eqn:He.
    + exists [ExtractInfo (output_template dir base) ("ytsearch:" ++ query) (Ok (Some info))].
      split; [reflexivity | left; now split].
    + destruct (ydl_download E _ _ (webpage_url video)) as [fs' [u|e]]; cbn [fst].
      * eexists. split.
        -- unfold emit; cbn [trace fs]. rewrite <- !app_assoc. reflexivity.
        -- right. exists info, video, rest. now repeat split.
      * eexists. split.
        -- unfold emit; cbn [trace fs]. rewrite <- !app_assoc. reflexivity.
        -- right. exists info, video, rest. now repeat split.
    + exists [ExtractInfo (output_template dir base) ("ytsearch:" ++ query) (Ok (Some info))].
      split; [reflexivity | left; now split].
  - eexists. split.
    + cbn [fst]. rewrite !trace_emit, <- !app_assoc. reflexivity.
    + left. now split.
  - eexists. split.
    + cbn [fst]. rewrite !trace_emit, <- !app_assoc. reflexivity.
    + left. now split.
Qed.

(** ** More on main *)

Section MainMore.

Context {FS : Type} (E : Services FS).

Lemma main_invalid (line : string) (sched : list nat) (w : World FS) :
  extract_spotify_id (Str.strip line) = (None, None) ->
  main E line sched w = (emit (Log ERROR "Invalid Spotify URL.") w, Ok tt).
Proof. intros H. unfold main. rewrite H. reflexivity. Qed.

Lemma main_fetch_failed (line : string) (sched : list nat) (w w1 : World FS)
      (ut sid : string) (e : exn) :
  extract_spotify_id (Str.strip line) = (Some ut, Some sid) ->
  get_items_from_spotify E ut sid w = (w1, Raise e) ->
  main E line sched w
  = (emit (Log ERROR ("Failed to fetch items: " ++ exn_msg e)) w1, Ok tt).
Proof.
  intros H1 H2. unfold main. rewrite H1.
  destruct (extract_spotify_id_truthy _ _ _ H1) as [Hu Hs].
  cbn [truthy_opt str_opt get_or]. rewrite Hu, Hs. cbn [negb orb].
  unfold bind at 1, try_except, bind at 1. rewrite H2. reflexivity.
Qed.

Lemma download_single_eq (dir : string) (track : Track) (rest : list Track) (w : World FS) :
  exists w1 res,
    download_song E (build_query track) dir (base_filename_of track)
                  (emit (Log INFO ("Search query: " ++ build_query track)) w)
    = (w1, Ok res)
    /\ (res = None \/ res = Some (final_path dir (base_filename_of track)))
    /\ download_single E dir (track :: rest) w = (emit (single_report res) w1, Ok tt).
Proof.
  destruct (download_song_total E (build_query track) dir (base_filename_of track)
              (emit (Log INFO ("Search query: " ++ build_query track)) w))
    as (w1 & res & Hd).
  exists w1, res. split; [exact Hd|].
  destruct (download_song_ok E _ _ _ _ _ _ Hd) as [_ Hr].
  assert (Hres : res = None \/ res = Some (final_path dir (base_filename_of track)))
    by (destruct Hr as [Hr | Hr]; inversion Hr; auto).
  split; [exact Hres|].
  unfold download_single, bind at 1, logger_info at 1, bind. rewrite Hd.
  destruct Hres as [-> | ->]; cbn [truthy_opt str_opt get_or single_report];
    [|rewrite truthy_final_path]; reflexivity.
Qed.

End MainMore.

(** X13: when the typed line contains no occurrence of the catalog
    pattern, [main] logs "Invalid Spotify URL." and ends normally: it asks
    no service and touches no file. *)
Theorem main_invalid_url
    (FS : Type) (E : Services FS) (line : string) (sched : list nat) (w : World FS) :
  ~ contains_catalog_match line ->
  main E line sched w = (emit (Log ERROR "Invalid Spotify URL.") w, Ok tt).
Proof.
  intros Hn. apply main_invalid. rewrite extract_find, find_match_strip.
  destruct (find_match line) eqn:Ef; [|reflexivity].
  destruct Hn. apply contains_find_match. now rewrite Ef.
Qed.

Lemma main_invalid_url_witness :
  main Demo.ok_env "not a url" [] Demo.fresh
  = (emit (Log ERROR "Invalid Spotify URL.") Demo.fresh, Ok tt).
Proof.
  apply main_invalid_url. intros H. apply contains_find_match in H. now apply H.
Defined.

(** X14: when the catalog fetch fails, [main] logs "Failed to fetch
    items: ..." with the exception's message and ends normally; the
    filesystem is untouched, and nothing but catalog calls and log records
    happened: no directory, no search, no download. *)
Theorem main_fetch_failure
    (FS : Type) (E : Services FS) (line : string) (sched : list nat)
    (w w1 : World FS) (ut sid : string) (e : exn) :
  extract_spotify_id line = (Some ut, Some sid) ->
  get_items_from_spotify E ut sid w = (w1, Raise e) ->
  main E line sched w
  = (emit (Log ERROR ("Failed to fetch items: " ++ exn_msg e)) w1, Ok tt)
  /\ fs (fst (main E line sched w)) = fs w
  /\ extends is_catalog_event w (fst (main E line sched w)).
Proof.
  intros H1 H2. rewrite <- extract_spotify_id_strip_eq in H1.
  rewrite (main_fetch_failed E _ _ _ _ _ _ _ H1 H2).
  destruct (quiet_get_items E ut sid _ _ _ H2) as [Hfs Hx].
  split; [reflexivity|]. cbn [fst]. split; [exact Hfs|].
  eapply extends_trans; [exact Hx | now apply extends_emit].
Qed.

(** X16: the single-track branch logs the search query, downloads the
    first item only, with the query and the base file name built from it,
    and ends normally with one last record: "Downloaded song to" and the
    expected path when [download_song] returned it, "Failed to download
    the song." when it returned absence. *)
Theorem download_single_reports
    (FS : Type) (E : Services FS) (dir : string) (track : Track) (rest : list Track)
    (w : World FS) :
  exists w1 res,
    download_song E (build_query track) dir (base_filename_of track)
                  (emit (Log INFO ("Search query: " ++ build_query track)) w)
    = (w1, Ok res)
    /\ (res = None \/ res = Some (final_path dir (base_filename_of track)))
    /\ download_single E dir (track :: rest) w = (emit (single_report res) w1, Ok tt).
Proof. apply download_single_eq. Qed.

(** ** The order in which the pool runs the tasks *)

Section PoolOrder.

Context {FS A X : Type} (task_of : X -> M FS A).

Lemma run_seq_app (a b : list (M FS A)) (w : World FS) :
  run_seq (a ++ b) w = run_seq b (run_seq a w).
Proof. revert w; induction a as [|t a IH]; intros w; cbn; [reflexivity | apply IH]. Qed.

Lemma pool_of_submit (xs : list X) : pool_of task_of xs (map Pending (map task_of xs)).
Proof. induction xs; cbn; constructor; [reflexivity | assumption]. Qed.

Lemma pending_submit (xs : list X) :
  pending xs (map (Pending (FS := FS) (A := A)) (map task_of xs)) = xs.
Proof. induction xs as [|x xs IH]; cbn; [reflexivity | now rewrite IH]. Qed.

Lemma run_at_order (i : nat) :
  forall xs pool w w' pool',
    pool_of task_of xs pool -> run_at i pool w = (w', pool') ->
    pool_of task_of xs pool'
    /\ exists done,
        w' = run_seq (map task_of done) w
        /\ Permutation (done ++ pending xs pool') (pending xs pool).
Proof.
  induction i as [|i IH]; intros xs pool w w' pool' Hp H;
    destruct Hp as [|x f xs pool Hf Hp]; cbn [run_at] in H.
  - inversion H; subst. split; [constructor|]. exists []. now split.
  - destruct f as [t|r].
    + subst t. destruct (task_of x w) as [w1 r] eqn:Ht. inversion H; subst.
      split; [now constructor|]. exists [x]. cbn. rewrite Ht. now split.
    + inversion H; subst. split; [now constructor|]. exists []. now split.
  - inversion H; subst. split; [constructor|]. exists []. now split.
  - destruct (run_at i pool w) as [w1 p1] eqn:Hr. inversion H; subst.
    destruct (IH _ _ _ _ _ Hp Hr) as [Hp' (done & Hw & Hperm)].
    split; [now constructor|]. exists done. split; [assumption|].
    destruct f as [t|r]; cbn [pending]; [|assumption].
    apply Permutation_sym, Permutation_cons_app, Permutation_sym, Hperm.
Qed.

Lemma run_sched_order (sched : list nat) :
  forall xs pool w w' pool',
    pool_of task_of xs pool -> run_sched sched pool w = (w', pool') ->
    pool_of task_of xs pool'
    /\ exists done,
        w' = run_seq (map task_of done) w
        /\ Permutation (done ++ pending xs pool') (pending xs pool).
Proof.
  induction sched as [|i sched IH]; intros xs pool w w' pool' Hp H; cbn [run_sched] in H.
  - inversion H; subst. split; [assumption|]. exists []. now split.
  - destruct (run_at i pool w) as [w1 p1] eqn:Hr.
    destruct (run_at_order _ _ _ _ _ _ Hp Hr) as [Hp1 (d1 & Hw1 & Hperm1)].
    destruct (IH _ _ _ _ _ Hp1 H) as [Hp2 (d2 & Hw2 & Hperm2)].
    split; [assumption|]. exists (d1 ++ d2)%list. split.
    + now rewrite map_app, run_seq_app, <- Hw1.
    + rewrite <- app_assoc. etransitivity; [|exact Hperm1].
      now apply Permutation_app_head.
Qed.

Lemma join_all_order (xs : list X) (pool : list (Future FS A)) :
  pool_of task_of xs pool ->
  forall w, fst (join_all pool w) = run_seq (map task_of (pending xs pool)) w.
Proof.
  induction 1 as [|x f xs pool Hf Hp IH]; intros w; cbn [join_all pending]; [reflexivity|].
  destruct f as [t|r].
  - subst t. cbn [map run_seq]. destruct (task_of x w) as [w1 r].
    specialize (IH w1). destruct (join_all pool w1). exact IH.
  - specialize (IH w). destruct (join_all pool w). exact IH.
Qed.

(** Whatever the schedule, the pool leaves the world as running every task
    once, one after the other, in some order, leaves it. *)
Lemma run_pool_order (xs : list X) (sched : list nat) (w : World FS) :
  exists ys,
    Permutation ys xs
    /\ fst (run_pool (map task_of xs) sched w) = run_seq (map task_of ys) w.
Proof.
  unfold run_pool.
  destruct (run_sched sched (map Pending (map task_of xs)) w) as [w1 pool] eqn:Hs.
  destruct (run_sched_order _ _ _ _ _ _ (pool_of_submit xs) Hs) as [Hp (done & Hw & Hperm)].
  rewrite pending_submit in Hperm.
  exists (done ++ pending xs pool)%list. split; [assumption|].
  now rewrite (join_all_order _ _ Hp), map_app, run_seq_app, <- Hw.
Qed.

End PoolOrder.

Lemma searches_app (a b : list event) : searches (a ++ b) = (searches a ++ searches b)%list.
Proof. unfold searches. apply flat_map_app. Qed.

Section Searches.

Context {FS : Type} (E : Services FS).

Lemma download_song_searches (query dir base : string) (w : World FS) :
  exists evs,
    trace (fst (download_song E query dir base w)) = (trace w ++ evs)%list
    /\ searches evs = ["ytsearch:" ++ query].
Proof.
  rewrite download_song_eq. cbv zeta.
  destruct (ydl_extract_info E w _ _) as [[info|]|e].
  - destruct (entries info) as [[|video rest]|].
    + eexists [_]. split; reflexivity.
    + destruct (ydl_download E _ _ (webpage_url video)) as [fs' [u|e]]; cbn [fst];
        (eexists; split;
         [unfold emit; cbn [trace fs]; rewrite <- !app_assoc; reflexivity | reflexivity]).
    + eexists [_]. split; reflexivity.
  - eexists. split; [cbn [fst]; rewrite !trace_emit, <- !app_assoc; reflexivity|reflexivity].
  - eexists. split; [cbn [fst]; rewrite !trace_emit, <- !app_assoc; reflexivity|reflexivity].
Qed.

Lemma process_track_searches (folder : string) (track : Track) (w : World FS) :
  exists evs,
    trace (fst (process_track E folder track w)) = (trace w ++ evs)%list
    /\ searches evs = [search_of track].
Proof.
  unfold process_track, bind, logger_info.
  destruct (download_song_searches (build_query track) folder (base_filename_of track)
              (emit (Log INFO ("Downloading track: " ++ base_filename_of track)) w))
    as (evs & Htr & Hs).
  destruct (download_song E _ _ _ _) as [w1 r]. cbn [fst] in *.
  exists (Log INFO ("Downloading track: " ++ base_filename_of track) :: evs).
  split; [now rewrite Htr, trace_emit, <- app_assoc | exact Hs].
Qed.

Lemma run_seq_searches (folder : string) (ys : list Track) :
  forall w,
    exists evs,
      trace (run_seq (map (process_track E folder) ys) w) = (trace w ++ evs)%list
      /\ searches evs = map search_of ys.
Proof.
  induction ys as [|y ys IH]; intros w; cbn [map run_seq].
  - exists []. now rewrite app_nil_r.
  - destruct (process_track_searches folder y w) as (e1 & H1 & S1).
    destruct (IH (fst (process_track E folder y w))) as (e2 & H2 & S2).
    exists (e1 ++ e2)%list. split; [now rewrite H2, H1, app_assoc|].
    now rewrite searches_app, S1, S2.
Qed.

End Searches.

(** X17: whatever order the worker pool runs the tasks in, the collection
    download searches once for every track of the collection: the queries
    of the searches it makes are, up to order, the queries of the
    tracks. *)
Theorem download_many_searches_each_track_once
    (FS : Type) (E : Services FS) (folder : string) (items : list Track)
    (sched : list nat) (w : World FS) :
  exists evs,
    trace (fst (download_many E folder items sched w)) = (trace w ++ evs)%list
    /\ Permutation (searches evs) (map search_of items).
Proof.
  destruct (run_pool_order (process_track E folder) items sched w) as (ys & Hperm & Hw).
  destruct (run_seq_searches E folder ys w) as (evs & Htr & Hs).
  exists evs. split.
  - unfold download_many.
    destruct (run_pool (map (process_track E folder) items) sched w) as [w' rs].
    cbn [fst] in *. now rewrite Hw.
  - rewrite Hs. now apply Permutation_map.
Qed.

(** ** setup.py *)

Lemma replace_char_length (a b : ascii) (s : string) :
  String.length (Setup.replace_char a b s) = String.length s.
Proof. induction s as [|c s IH]; cbn; [reflexivity | now rewrite IH]. Qed.

Lemma replace_char_absent (a b : ascii) (s : string) :
  Ascii.eqb b a = false ->
  Str.all (fun c => negb (Ascii.eqb c a)) (Setup.replace_char a b s) = true.
Proof.
  intros Hab. induction s as [|c s IH]; cbn; [reflexivity|].
  rewrite IH, andb_true_r. destruct (Ascii.eqb c a) eqn:E; [now rewrite Hab | now rewrite E].
Qed.

Lemma replace_char_id_iff (a b : ascii) (s : string) :
  Ascii.eqb b a = false ->
  Setup.replace_char a b s = s <-> Str.all (fun c => negb (Ascii.eqb c a)) s = true.
Proof.
  intros Hab. induction s as [|c s IH]; cbn; [tauto|].
  destruct (Ascii.eqb c a) eqn:E; cbn.
  - split; [|discriminate]. intros H. injection H as H _. subst c. congruence.
  - rewrite <- IH. split; [now intros [= ->] | now intros ->].
Qed.

(** X18: the module name that [install_packages] imports for a package
    has the length of the package name and no hyphen, every hyphen having
    become an underscore; it is the package name itself exactly when that
    has no hyphen. *)
Theorem module_name_no_hyphen (pkg : string) :
  String.length (Setup.module_name pkg) = String.length pkg
  /\ Str.all (fun c => negb (Ascii.eqb c "-")) (Setup.module_name pkg) = true
  /\ (Setup.module_name pkg = pkg
      <-> Str.all (fun c => negb (Ascii.eqb c "-")) pkg = true).
Proof.
  unfold Setup.module_name. split; [apply replace_char_length|].
  split; [now apply replace_char_absent | now apply replace_char_id_iff].
Qed.

Section SetupScript.

Context {FS : Type} (E : Setup.Services FS).

(** One turn of the loop, case by case. *)
Lemma install_package_eq (libs pkg : string) (w : Setup.World FS) :
  Setup.install_package E libs pkg w =
  let n := Setup.module_name pkg in
  match Setup.import_ E w n with
  | Ok u =>
      (Setup.mkWorld (Setup.fs w)
         (Setup.trace w ++ [Setup.Import n (Ok u);
                            Setup.Print (pkg ++ " is already installed.")]), Ok tt)
  | Raise e =>
      if Setup.is_import_error e then
        let w1 := Setup.mkWorld (Setup.fs w)
                    (Setup.trace w ++ [Setup.Import n (Raise e);
                                       Setup.Print ("Installing " ++ pkg ++ " into "
                                                    ++ libs ++ " ...")]) in
        let '(fs', r) := Setup.check_call E w1 (Setup.pip_args E libs pkg) in
        (Setup.mkWorld fs'
           (Setup.trace w1 ++ [Setup.CheckCall (Setup.pip_args E libs pkg) r]), r)
      else
        (Setup.mkWorld (Setup.fs w) (Setup.trace w ++ [Setup.Import n (Raise e)]), Raise e)
  end.
Proof.
  unfold Setup.install_package, Setup.bind at 1, Setup.do_import. cbv zeta.
  destruct (Setup.import_ E w (Setup.module_name pkg)) as [u|e].
  - unfold Setup.print, Setup.emit. cbn [Setup.fs Setup.trace].
    now rewrite <- app_assoc.
  - destruct (Setup.is_import_error e); [|reflexivity].
    unfold Setup.bind, Setup.print, Setup.do_check_call, Setup.emit.
    cbn [Setup.fs Setup.trace]. now rewrite <- app_assoc.
Qed.

(** The events of one turn: the import, and the pip call when the import
    failed with an ImportError. *)
Lemma install_package_events (libs pkg : string) (w w' : Setup.World FS) (r : result unit) :
  Setup.install_package E libs pkg w = (w', r) ->
  exists evs o,
    Setup.trace w' = (Setup.trace w ++ evs)%list
    /\ Setup.imports evs = [(Setup.module_name pkg, o)]
    /\ ((r = Ok tt /\ Setup.import_outcome o
         /\ Setup.commands evs = map (Setup.pip_args E libs) (Setup.missing [pkg] [o]))
        \/ (exists e, r = Raise e)
           /\ Forall (fun args => args = Setup.pip_args E libs pkg) (Setup.commands evs)).
Proof.
  rewrite install_package_eq. cbv zeta.
  destruct (Setup.import_ E w (Setup.module_name pkg)) as [u|e].
  - intros H; inversion H; subst. eexists _, (Ok u). cbn [Setup.trace].
    split; [reflexivity|]. split; [reflexivity|]. left. now repeat split.
  - destruct (Setup.is_import_error e) eqn:Hi.
    + destruct (Setup.check_call E _ _) as [fs' [[]|e']]; intros H; inversion H; subst;
        eexists _, (Raise e); cbn [Setup.trace]; rewrite <- app_assoc;
        (split; [reflexivity|]); (split; [reflexivity|]).
      * left. now repeat split.
      * right. split; [now exists e' | repeat constructor].
    + intros H; inversion H; subst. eexists _, (Raise e). cbn [Setup.trace].
      split; [reflexivity|]. split; [reflexivity|]. right. split; [now exists e | constructor].
Qed.

Lemma imports_app (a b : list Setup.event) :
  Setup.imports (a ++ b) = (Setup.imports a ++ Setup.imports b)%list.
Proof. apply flat_map_app. Qed.

Lemma commands_app (a b : list Setup.event) :
  Setup.commands (a ++ b) = (Setup.commands a ++ Setup.commands b)%list.
Proof. apply flat_map_app. Qed.

Lemma missing_cons (pkg : string) (o : result unit) (packages : list string)
      (outcomes : list (result unit)) :
  Setup.missing (pkg :: packages) (o :: outcomes)
  = (Setup.missing [pkg] [o] ++ Setup.missing packages outcomes)%list.
Proof. destruct o; reflexivity. Qed.

Lemma install_packages_ok (libs : string) (packages : list string) :
  forall (w w' : Setup.World FS),
    Setup.install_packages E libs packages w = (w', Ok tt) ->
    exists evs outcomes,
      Setup.trace w' = (Setup.trace w ++ evs)%list
      /\ List.length outcomes = List.length packages
      /\ Forall Setup.import_outcome outcomes
      /\ Setup.imports evs = combine (map Setup.module_name packages) outcomes
      /\ Setup.commands evs
         = map (Setup.pip_args E libs) (Setup.missing packages outcomes).
Proof.
  induction packages as [|pkg packages IH]; intros w w' H; cbn [Setup.install_packages] in H.
  - inversion H; subst. exists [], []. rewrite app_nil_r. now repeat split.
  - unfold Setup.bind in H.
    destruct (Setup.install_package E libs pkg w) as [w1 [[]|e]] eqn:Hp; [|discriminate].
    destruct (install_package_events _ _ _ _ _ Hp)
      as (e1 & o & Ht1 & Hi1 & [(_ & Ho & Hc1) | ((e' & He') & _)]); [|discriminate].
    destruct (IH _ _ H) as (e2 & outcomes & Ht2 & Hlen & Hall & Hi2 & Hc2).
    exists (e1 ++ e2)%list, (o :: outcomes).
    split; [now rewrite Ht2, Ht1, app_assoc|].
    split; [cbn; now rewrite Hlen|]. split; [now constructor|].
    split; [now rewrite imports_app, Hi1, Hi2|].
    now rewrite commands_app, Hc1, Hc2, (missing_cons pkg o packages outcomes), map_app.
Qed.

(** Whatever its outcome, the loop runs pip commands only. *)
Lemma install_packages_commands (libs : string) (packages : list string) :
  forall (w w' : Setup.World FS) (r : result unit),
    Setup.install_packages E libs packages w = (w', r) ->
    exists evs,
      Setup.trace w' = (Setup.trace w ++ evs)%list
      /\ Forall (fun args => exists pkg, args = Setup.pip_args E libs pkg)
                (Setup.commands evs).
Proof.
  induction packages as [|pkg packages IH]; intros w w' r H;
    cbn [Setup.install_packages] in H.
  - inversion H; subst. exists []. rewrite app_nil_r. split; [reflexivity | constructor].
  - unfold Setup.bind in H.
    destruct (Setup.install_package E libs pkg w) as [w1 r1] eqn:Hp.
    destruct (install_package_events _ _ _ _ _ Hp) as (e1 & o & Ht1 & _ & Hc).
    assert (Hc1 : Forall (fun args => exists pkg, args = Setup.pip_args E libs pkg)
                         (Setup.commands e1)).
    { destruct Hc as [(_ & _ & ->) | (_ & Hc)].
      - destruct o; repeat constructor. now exists pkg.
      - eapply Forall_impl; [|exact Hc]. intros a ->. now exists pkg. }
    destruct r1 as [[]|e].
    + destruct (IH _ _ _ H) as (e2 & Ht2 & Hc2). exists (e1 ++ e2)%list.
      split; [now rewrite Ht2, Ht1, app_assoc|]. rewrite commands_app.
      now apply Forall_app.
    + inversion H; subst. now exists e1.
Qed.

End SetupScript.



Lemma pip_args_not_main {FS : Type} (E : Setup.Services FS) (libs : string)
      (cmds : list (list string)) :
  Forall (fun args => exists pkg, args = Setup.pip_args E libs pkg) cmds ->
  ~ In (Setup.main_args E) cmds.
Proof.
  intros H Hin. rewrite Forall_forall in H. destruct (H _ Hin) as (pkg & Hp).
  unfold Setup.main_args, Setup.pip_args in Hp. discriminate.
Qed.

Section SetupFailures.

Context {FS : Type} (E : Setup.Services FS).

Local Abbreviation main_cmd := (Setup.main_args E).

Lemma pip_args_neq_main (libs pkg : string) : Setup.pip_args E libs pkg <> main_cmd.
Proof. unfold Setup.main_args, Setup.pip_args. discriminate. Qed.

Lemma failure_functional (ev : Setup.event) (e e' : exn) :
  Setup.failure main_cmd ev e -> Setup.failure main_cmd ev e' -> e = e'.
Proof.
  destruct ev as [| ? [|?] | ? [|?] | | ? [|?]]; cbn; try tauto.
  - congruence.
  - intros [-> _] [-> _]. reflexivity.
  - intros [-> _] [-> _]. reflexivity.
Qed.

(** One turn of the loop either succeeds without a failure event, or ends
    with the failure event whose exception it raises. *)
Lemma install_package_clean (libs pkg : string) (w w' : Setup.World FS) (r : result unit) :
  Setup.install_package E libs pkg w = (w', r) ->
  exists evs,
    Setup.trace w' = (Setup.trace w ++ evs)%list
    /\ ((r = Ok tt /\ Setup.clean main_cmd evs)
        \/ exists evs0 ev e,
            evs = (evs0 ++ [ev])%list /\ Setup.failure main_cmd ev e
            /\ Setup.clean main_cmd evs0 /\ r = Raise e).
Proof.
  rewrite install_package_eq. cbv zeta.
  destruct (Setup.import_ E w (Setup.module_name pkg)) as [u|e].
  - intros H; inversion H; subst. eexists. cbn [Setup.trace]. split; [reflexivity|].
    left. split; [reflexivity|]. repeat constructor; intros e F; exact F.
  - destruct (Setup.is_import_error e) eqn:Hi.
    + destruct (Setup.check_call E _ _) as [fs' [[]|e']]; intros H; inversion H; subst;
        eexists; cbn [Setup.trace]; rewrite <- app_assoc; (split; [reflexivity|]).
      * left. split; [reflexivity|]. repeat constructor; intros e0 F; cbn in F;
          try exact F. destruct F as [-> F]. congruence.
      * right. eexists [_; _], _, e'. split; [reflexivity|].
        split; [cbn; split; [reflexivity | apply pip_args_neq_main]|].
        split; [|reflexivity]. repeat constructor; intros e0 F; cbn in F;
          try exact F. destruct F as [-> F]. congruence.
    + intros H; inversion H; subst. eexists. cbn [Setup.trace]. split; [reflexivity|].
      right. exists [], (Setup.Import (Setup.module_name pkg) (Raise e)), e.
      split; [reflexivity|]. split; [now cbn|]. split; [constructor | reflexivity].
Qed.

Lemma install_packages_clean (libs : string) (packages : list string) :
  forall (w w' : Setup.World FS) (r : result unit),
    Setup.install_packages E libs packages w = (w', r) ->
    exists evs,
      Setup.trace w' = (Setup.trace w ++ evs)%list
      /\ ((r = Ok tt /\ Setup.clean main_cmd evs)
          \/ exists evs0 ev e,
              evs = (evs0 ++ [ev])%list /\ Setup.failure main_cmd ev e
              /\ Setup.clean main_cmd evs0 /\ r = Raise e).
Proof.
  induction packages as [|pkg packages IH]; intros w w' r H;
    cbn [Setup.install_packages] in H.
  - inversion H; subst. exists []. rewrite app_nil_r. split; [reflexivity|].
    left. split; [reflexivity | constructor].
  - unfold Setup.bind in H.
    destruct (Setup.install_package E libs pkg w) as [w1 r1] eqn:Hp.
    destruct (install_package_clean _ _ _ _ _ Hp) as (e1 & Ht1 & Hc1).
    destruct Hc1 as [[-> Hc1] | (evs0 & ev & e & -> & Hf & Hc0 & ->)].
    + destruct (IH _ _ _ H) as (e2 & Ht2 & Hc2). exists (e1 ++ e2)%list.
      split; [now rewrite Ht2, Ht1, app_assoc|].
      destruct Hc2 as [[-> Hc2] | (evs0 & ev & e & -> & Hf & Hc0 & ->)].
      * left. split; [reflexivity | now apply Forall_app].
      * right. exists (e1 ++ evs0)%list, ev, e. split; [now rewrite app_assoc|].
        split; [assumption|]. split; [now apply Forall_app | reflexivity].
    + inversion H; subst. exists (evs0 ++ [ev])%list. split; [assumption|].
      right. now exists evs0, ev, e.
Qed.

End SetupFailures.



Lemma main_fetch_failure_witness :
  exists w1,
    main Demo.ok_env "https://open.spotify.com/album/abc123" [] Demo.fresh
    = (emit (Log ERROR ("Failed to fetch items: " ++ "http status: 404")) w1, Ok tt)
    /\ fs (fst (main Demo.ok_env "https://open.spotify.com/album/abc123" [] Demo.fresh))
       = fs Demo.fresh.
Proof.
  destruct (get_items_from_spotify Demo.ok_env "album" "abc123" Demo.fresh)
    as [w1 r] eqn:H.
  assert (Hr : r = Raise (mkExn "SpotifyException" "http status: 404"))
    by (vm_compute in H; now inversion H).
  subst r.
  destruct (main_fetch_failure _ Demo.ok_env "https://open.spotify.com/album/abc123" []
              Demo.fresh w1 "album" "abc123" _ eq_refl H) as (Hm & Hfs & _).
  exists w1. split; [exact Hm | exact Hfs].
Defined.
